(** * Data lineage ledger and lineage-graph reconstruction

    A shallow embedding of [database.py] (class [LineageDB]) together with
    the facts the design document states about it.

    - The SQLite file is an explicit state [DB]; every method of
      [LineageDB] is a computation in a small state-and-exception monad.
    - What the code delegates to libraries is an interface: the SQL
      engine's [ORDER BY] ([SqlEngine]) and Python's [json] module
      ([JsonCodec]).  Reference implementations of both are given further
      down, so every statement proved under the interfaces has a model.
    - What an insert reads from the clocks is an argument ([Clock]), and
      Python's bounded call stack is the [recursion_limit] argument of
      [get_full_lineage_graph]. *)

From Stdlib Require Import ZArith Ascii DecimalPos DecimalZ.
From stdpp Require Import base strings list sorting relations gmap.

Set Warnings "-register-all,-clear-no-such-hyp".


(** ** Python values *)

(** A JSON document as Python holds it; [JNull] is [None].  A [dict] is
    the sequence of its items in insertion order, the order [json.dumps]
    writes them in.  Floats are left out. *)
Inductive Json : Type :=
  | JNull
  | JBool (b : bool)
  | JInt (z : Z)
  | JStr (s : string)
  | JList (l : list Json)
  | JDict (d : list (string * Json)).

(** Truth value of a Python object, as [if x:] tests it. *)
Definition truthy (v : Json) : bool :=
  match v with
  | JNull => false
  | JBool b => b
  | JInt z => negb (Z.eqb z 0)
  | JStr s => negb (String.eqb s EmptyString)
  | JList l => match l with [] => false | _ => true end
  | JDict d => match d with [] => false | _ => true end
  end.

(** [if s:] on a string. *)
Definition truthy_str (s : string) : bool := negb (String.eqb s EmptyString).

(** ** Exceptions and the method monad *)

Inductive exn : Type :=
  | RecursionError
  | JSONDecodeError
  | OperationalError.

Inductive result (A : Type) : Type :=
  | Ok (a : A)
  | Raise (e : exn).
Arguments Ok {A} a.
Arguments Raise {A} e.

Definition is_ok {A} (r : result A) : bool :=
  match r with
  | Ok _ => true
  | Raise _ => false
  end.

(** ** The library interfaces *)

(** [json.dumps] and [json.loads].  Serialising and parsing back is the
    identity, and no document serialises to the empty text. *)
Class JsonCodec := {
  json_dumps : Json → string;
  json_loads : string → result Json;
  json_loads_dumps : ∀ v, json_loads (json_dumps v) = Ok v;
  json_dumps_nonempty : ∀ v, json_dumps v ≠ EmptyString
}.

(** [ORDER BY key ASC] over a text column with the default (byte-wise)
    collation: the rows come back rearranged so that the keys ascend.
    SQL says nothing about rows with equal keys. *)
Definition key_le {A} (key : A → string) : relation A :=
  λ x y, String.le (key x) (key y).

Class SqlEngine := {
  order_by : ∀ {A : Type}, (A → string) → list A → list A;
  order_by_Permutation : ∀ {A} (key : A → string) (l : list A),
    order_by key l ≡ₚ l;
  order_by_Sorted : ∀ {A} (key : A → string) (l : list A),
    Sorted (key_le key) (order_by key l)
}.

(** What SQL leaves open and SQLite settles: rows with equal keys come
    back in the order in which the scan delivered them, as from a stable
    sort.  The rows of [lineage_records] are scanned by ascending rowid. *)
Class StableSqlEngine `{!SqlEngine} : Prop :=
  order_by_stable : ∀ {A} (key : A → string) (l : list A) (k : string),
    filter (λ x, key x = k) (order_by key l) = filter (λ x, key x = k) l.

(** ** The database file *)

(** A row of [lineage_records]. *)
Record Row : Type := {
  r_id : Z;
  r_dataset_id : string;
  r_operation : string;
  r_source_dataset_id : option string;
  r_metadata : option string;
  r_timestamp : string;
  r_created_at : string
}.

(** The table in rowid order and the [AUTOINCREMENT] counter, the largest
    rowid handed out so far. *)
Record DB : Type := {
  lineage_records : list Row;
  sqlite_sequence : Z
}.

(** The file after [_init_schema] ran on a fresh path. *)
Definition init_db : DB := {| lineage_records := []; sqlite_sequence := 0%Z |}.

(** Largest rowid SQLite can assign. *)
Definition max_rowid : Z := (2 ^ 63 - 1)%Z.

(** What the environment supplies at an insert:
    [datetime.utcnow().isoformat()] and SQLite's [CURRENT_TIMESTAMP]. *)
Record Clock : Type := {
  utcnow_isoformat : string;
  current_timestamp : string
}.

Definition M (A : Type) : Type := DB → result A * DB.

Global Instance M_ret : MRet M := λ A a db, (Ok a, db).
Global Instance M_bind : MBind M := λ A B f m db,
  match m db with
  | (Ok a, db') => f a db'
  | (Raise e, db') => (Raise e, db')
  end.

Definition raise {A} (e : exn) : M A := λ db, (Raise e, db).
Definition lift {A} (r : result A) : M A := λ db, (r, db).

(** A dictionary of [get_lineage]'s answer. *)
Record LineageRecord : Type := {
  rec_id : Z;
  rec_dataset_id : string;
  rec_operation : string;
  rec_source_dataset_id : option string;
  rec_metadata : Json;
  rec_timestamp : string;
  rec_created_at : string
}.

(** An entry of a node's ["operations"]. *)
Record Operation : Type := {
  operation : string;
  timestamp : string;
  metadata : Json
}.

(** The nested dictionaries [get_full_lineage_graph] returns. *)
Inductive Graph : Type :=
  | Node (id : string) (ops : list Operation) (srcs : list Graph).

Definition dataset_id (g : Graph) : string :=
  match g with Node id _ _ => id end.
Definition operations (g : Graph) : list Operation :=
  match g with Node _ ops _ => ops end.
Definition sources (g : Graph) : list Graph :=
  match g with Node _ _ srcs => srcs end.

(** [parent_graph["operations"].append(o)] and
    [parent_graph["sources"].append(s)]. *)
Definition append_operation (g : Graph) (o : Operation) : Graph :=
  Node (dataset_id g) (operations g ++ [o]) (sources g).
Definition append_source (g : Graph) (s : Graph) : Graph :=
  Node (dataset_id g) (operations g) (sources g ++ [s]).

Section LineageDB.
Context `{!JsonCodec, !SqlEngine}.

(** *** SQL statements *)

(** [INSERT INTO lineage_records (...) VALUES (?, ?, ?, ?, ?)] followed
    by [commit]; answers [cursor.lastrowid]. *)
Definition execute_insert (dataset_id operation : string)
    (source_dataset_id metadata : option string) (timestamp created_at : string)
    : M Z :=
  λ db,
    if decide (sqlite_sequence db < max_rowid)%Z then
      let rowid := (sqlite_sequence db + 1)%Z in
      (Ok rowid,
       {| lineage_records := lineage_records db ++
            [ {| r_id := rowid; r_dataset_id := dataset_id;
                 r_operation := operation;
                 r_source_dataset_id := source_dataset_id;
                 r_metadata := metadata; r_timestamp := timestamp;
                 r_created_at := created_at |} ];
          sqlite_sequence := rowid |})
    else (Raise OperationalError, db).

(** [SELECT ... FROM lineage_records WHERE dataset_id = ?
     ORDER BY timestamp ASC]. *)
Definition select_lineage (dataset_id : string) (db : DB) : list Row :=
  order_by r_timestamp
    (filter (λ row, r_dataset_id row = dataset_id) (lineage_records db)).

Definition execute_select_lineage (dataset_id : string) : M (list Row) :=
  λ db, (Ok (select_lineage dataset_id db), db).

(** [SELECT DISTINCT dataset_id FROM lineage_records ORDER BY dataset_id]. *)
Definition select_distinct_dataset_id (db : DB) : list string :=
  order_by (λ s, s) (remove_dups (r_dataset_id <$> lineage_records db)).

Definition execute_select_distinct_dataset_id : M (list string) :=
  λ db, (Ok (select_distinct_dataset_id db), db).

(** *** [LineageDB.record_transformation] *)
Definition record_transformation (dataset_id operation : string)
    (source_dataset_id : option string) (metadata : Json) (clock : Clock)
    : M Z :=
  let timestamp := utcnow_isoformat clock in
  let metadata_json :=
    if truthy metadata then Some (json_dumps metadata) else None in
  execute_insert dataset_id operation source_dataset_id metadata_json
    timestamp (current_timestamp clock).

(** *** [LineageDB.get_lineage] *)

(** [json.loads(row["metadata"]) if row["metadata"] else None]. *)
Definition load_metadata (column : option string) : result Json :=
  match column with
  | Some text => if truthy_str text then json_loads text else Ok JNull
  | None => Ok JNull
  end.

(** The loop over [cursor.fetchall()]. *)
Fixpoint fetch_records (rows : list Row) (records : list LineageRecord)
    : result (list LineageRecord) :=
  match rows with
  | [] => Ok records
  | row :: rows =>
      match load_metadata (r_metadata row) with
      | Ok md =>
          let record :=
            {| rec_id := r_id row; rec_dataset_id := r_dataset_id row;
               rec_operation := r_operation row;
               rec_source_dataset_id := r_source_dataset_id row;
               rec_metadata := md; rec_timestamp := r_timestamp row;
               rec_created_at := r_created_at row |} in
          fetch_records rows (records ++ [record])
      | Raise e => Raise e
      end
  end.

Definition get_lineage (dataset_id : string) : M (list LineageRecord) :=
  rows ← execute_select_lineage dataset_id;
  lift (fetch_records rows []).

(** *** [LineageDB.get_full_lineage_graph] *)

Definition operation_of (record : LineageRecord) : Operation :=
  {| operation := rec_operation record;
     timestamp := rec_timestamp record;
     metadata := rec_metadata record |}.

(** The [for record in records] loop of [build_graph]; [rec] is the
    recursive call one frame further down.  The source appends the empty
    [source_graph] to the parent and lets the recursive call fill it in
    place; no other reference to it exists, so appending it once it is
    filled builds the same dictionary. *)
Fixpoint for_records
    (rec : string → Graph → gset string → M (Graph * gset string))
    (records : list LineageRecord) (parent_graph : Graph)
    (visited : gset string) : M (Graph * gset string) :=
  match records with
  | [] => mret (parent_graph, visited)
  | record :: records =>
      let parent_graph := append_operation parent_graph (operation_of record) in
      match rec_source_dataset_id record with
      | Some src =>
          if truthy_str src then
            let source_graph := Node src [] [] in
            '(source_graph, visited) ← rec src source_graph visited;
            for_records rec records (append_source parent_graph source_graph)
              visited
          else for_records rec records parent_graph visited
      | None => for_records rec records parent_graph visited
      end
  end.

(** The inner function [build_graph].  It fills [parent_graph] and
    updates the shared [visited] set; both are threaded through.
    [frames] is the number of stack frames still available: a call
    that finds none raises [RecursionError]. *)
Fixpoint build_graph (frames : nat) (current_id : string)
    (parent_graph : Graph) (visited : gset string)
    : M (Graph * gset string) :=
  match frames with
  | O => raise RecursionError
  | S frames =>
      if decide (current_id ∈ visited) then mret (parent_graph, visited)
      else
        let visited := {[current_id]} ∪ visited in
        records ← get_lineage current_id;
        for_records (build_graph frames) records parent_graph visited
  end.

Definition get_full_lineage_graph (recursion_limit : nat)
    (dataset_id : string) : M Graph :=
  let visited : gset string := ∅ in
  let graph := Node dataset_id [] [] in
  '(graph, _) ← build_graph recursion_limit dataset_id graph visited;
  mret graph.

(** *** [LineageDB.list_all_datasets] *)
Definition list_all_datasets : M (list string) :=
  execute_select_distinct_dataset_id.

End LineageDB.

(** ** Ledgers, reachability and the shape of graphs *)

(** The arguments of one [record_transformation] call, with what the
    clocks showed when it ran. *)
Record Call : Type := {
  call_dataset_id : string;
  call_operation : string;
  call_source_dataset_id : option string;
  call_metadata : Json;
  call_clock : Clock
}.

Section Ledger.
Context `{!JsonCodec, !SqlEngine}.

Definition append (c : Call) : M Z :=
  record_transformation (call_dataset_id c) (call_operation c)
    (call_source_dataset_id c) (call_metadata c) (call_clock c).

(** The database a history of appends leaves behind, starting from a
    fresh file. *)
Definition ledger (history : list Call) : DB :=
  foldl (λ db c, (append c db).2) init_db history.

(** The metadata a row carries once parsed ([None] when the text does
    not parse; never the case for rows written by the code). *)
Definition metadata_of (row : Row) : Json :=
  match load_metadata (r_metadata row) with
  | Ok v => v
  | Raise _ => JNull
  end.

Definition record_of (row : Row) : LineageRecord :=
  {| rec_id := r_id row; rec_dataset_id := r_dataset_id row;
     rec_operation := r_operation row;
     rec_source_dataset_id := r_source_dataset_id row;
     rec_metadata := metadata_of row; rec_timestamp := r_timestamp row;
     rec_created_at := r_created_at row |}.

(** The rows of a dataset, as stored. *)
Definition rows_of (db : DB) (d : string) : list Row :=
  filter (λ row, r_dataset_id row = d) (lineage_records db).

(** The records a lookup of [d] yields. *)
Definition records_of (db : DB) (d : string) : list LineageRecord :=
  record_of <$> select_lineage d db.
End Ledger.

(** Every stored metadata text parses, rowids ascend and stay within the
    counter. *)
Record db_wf `{!JsonCodec} (db : DB) : Prop := {
  wf_loads : Forall (λ row, is_ok (load_metadata (r_metadata row)))
               (lineage_records db);
  wf_ids : StronglySorted Z.lt (r_id <$> lineage_records db);
  wf_seq : Forall (λ row, (0 < r_id row ≤ sqlite_sequence db)%Z)
             (lineage_records db);
  wf_seq_nonneg : (0 ≤ sqlite_sequence db)%Z
}.

(** The source a record's [if record["source_dataset_id"]:] lets through. *)
Definition followed_source (record : LineageRecord) : option string :=
  match rec_source_dataset_id record with
  | Some src => if truthy_str src then Some src else None
  | None => None
  end.

(** [d] has a record naming [s] as its source. *)
Definition edge (db : DB) (d s : string) : Prop :=
  ∃ row, row ∈ lineage_records db ∧ r_dataset_id row = d ∧
         r_source_dataset_id row = Some s ∧ s ≠ EmptyString.

Definition reachable (db : DB) : relation string := rtc (edge db).

(** A set of datasets that contains the source of every record of each
    of its members. *)
Definition closed (db : DB) (R : gset string) : Prop :=
  ∀ x s, x ∈ R → edge db x s → s ∈ R.

(** Every dataset the ledger names as a source. *)
Definition all_sources (db : DB) : gset string :=
  list_to_set (omap r_source_dataset_id (lineage_records db)).

(** The nodes of a graph in the order the traversal creates them. *)
Fixpoint preorder (g : Graph) : list Graph :=
  match g with
  | Node _ _ srcs => g :: (srcs ≫= preorder)
  end.

(** Nesting depth of the graph: [0] for a node without sources. *)
Fixpoint height (g : Graph) : nat :=
  match g with
  | Node _ _ srcs => foldr (λ s h, S (height s) `max` h) 0 srcs
  end.

Definition truncated (n : Graph) : Prop :=
  operations n = [] ∧ sources n = [].

(** A node that carries everything the ledger has on its dataset: one
    operation per record, one source per record with a source. *)
Definition expanded `{!JsonCodec, !SqlEngine} (db : DB) (n : Graph) : Prop :=
  operations n = operation_of <$> records_of db (dataset_id n) ∧
  dataset_id <$> sources n = omap followed_source (records_of db (dataset_id n)).

(** [walk db v nodes v']: going through [nodes] in order with the visited
    set [v], every node whose dataset was seen before is truncated, every
    other one is expanded and marks its dataset; [v'] is the set at the
    end. *)
Inductive walk `{!JsonCodec, !SqlEngine} (db : DB)
    : gset string → list Graph → gset string → Prop :=
  | walk_nil v : walk db v [] v
  | walk_seen v n nodes v' :
      dataset_id n ∈ v → truncated n → walk db v nodes v' →
      walk db v (n :: nodes) v'
  | walk_new v n nodes v' :
      dataset_id n ∉ v → expanded db n →
      walk db ({[dataset_id n]} ∪ v) nodes v' →
      walk db v (n :: nodes) v'.


(** A read request: a lookup, a graph reconstruction, or the list of
    datasets. *)
Inductive Read : Type :=
  | LookupByDataset (d : string)
  | BuildGraph (recursion_limit : nat) (d : string)
  | ListDistinctDatasetIds.

(** The database a read leaves behind. *)
Definition run_read `{!JsonCodec, !SqlEngine} (db : DB) (r : Read) : DB :=
  match r with
  | LookupByDataset d => (get_lineage d db).2
  | BuildGraph limit d => (get_full_lineage_graph limit d db).2
  | ListDistinctDatasetIds => (list_all_datasets db).2
  end.

(** Earlier timestamp, or same timestamp and smaller id. *)
Definition timestamp_then_id (a b : LineageRecord) : Prop :=
  strict String.le (rec_timestamp a) (rec_timestamp b) ∨
  (rec_timestamp a = rec_timestamp b ∧ (rec_id a < rec_id b)%Z).

(** The row an accepted append writes. *)
Definition row_of_call `{!JsonCodec} (rowid : Z) (c : Call) : Row :=
  {| r_id := rowid; r_dataset_id := call_dataset_id c;
     r_operation := call_operation c;
     r_source_dataset_id := call_source_dataset_id c;
     r_metadata := if truthy (call_metadata c)
                   then Some (json_dumps (call_metadata c)) else None;
     r_timestamp := utcnow_isoformat (call_clock c);
     r_created_at := current_timestamp (call_clock c) |}.

(** ** Example ledgers *)

Module Examples.

Definition clock (second : string) : Clock :=
  {| utcnow_isoformat := "2024-05-01T12:00:0" +:+ second +:+ ".250000";
     current_timestamp := "2024-05-01 12:00:0" +:+ second |}.

Definition call (second d op : string) (src : option string) (md : Json)
    : Call :=
  {| call_dataset_id := d; call_operation := op;
     call_source_dataset_id := src; call_metadata := md;
     call_clock := clock second |}.

(** [raw] is loaded, [clean] is derived from it. *)
Definition pipeline : list Call :=
  [ call "1" "raw" "load" None (JDict [("n", JInt 100)]);
    call "2" "clean" "dedupe" (Some "raw") (JDict [("removed", JInt 5)]) ].

(** Three appends to one dataset within the same clock reading. *)
Definition tied : list Call :=
  [ call "1" "clean" "dedupe" (Some "raw") JNull;
    call "1" "clean" "normalise" (Some "raw") JNull;
    call "1" "clean" "cast" (Some "raw") JNull ].

(** An append with an empty map as metadata. *)
Definition empty_metadata : Call := call "1" "raw" "load" None (JDict []).

(** An append with an empty dataset and an empty operation. *)
Definition empty_fields : Call :=
  call "1" EmptyString EmptyString None JNull.

(** [X] and [Y] both come from [S]; [R] comes from [X] and from [Y]. *)
Definition diamond : list Call :=
  [ call "1" "S" "load" None JNull;
    call "2" "X" "op" (Some "S") JNull;
    call "3" "Y" "op" (Some "S") JNull;
    call "4" "R" "join" (Some "X") JNull;
    call "5" "R" "join" (Some "Y") JNull ].

Definition op_at (second op : string) : Operation :=
  {| operation := op; timestamp := utcnow_isoformat (clock second);
     metadata := JNull |}.

Definition diamond_graph : Graph :=
  Node "R" [op_at "4" "join"; op_at "5" "join"]
    [ Node "X" [op_at "2" "op"] [Node "S" [op_at "1" "load"] []];
      Node "Y" [op_at "3" "op"] [Node "S" [] []] ].

(** The record of the append [operation] of [tied] that got [id]. *)
Definition tied_record (id : Z) (operation : string) : LineageRecord :=
  {| rec_id := id; rec_dataset_id := "clean"; rec_operation := operation;
     rec_source_dataset_id := Some "raw"; rec_metadata := JNull;
     rec_timestamp := utcnow_isoformat (clock "1");
     rec_created_at := current_timestamp (clock "1") |}.

(** [A] names [B] as its source and [B] names [A]. *)
Definition cycle : list Call :=
  [ call "1" "A" "op1" (Some "B") JNull;
    call "2" "B" "op2" (Some "A") JNull ].

End Examples.

(** * The HTTP service ([main.py]) and the opening of the database *)

(** [LineageDB.__init__] and [_init_schema] on a path whose file holds the
    table already ([Some]) or not; [CREATE TABLE IF NOT EXISTS] and the
    two [CREATE INDEX IF NOT EXISTS] leave an existing table as it is. *)
Definition _init_schema (file : option DB) : DB :=
  match file with
  | Some db => db
  | None => init_db
  end.

Module Main.

(** The handlers as the functions they are.  A handler returns a body or
    raises an [HTTPException]; matching the path of a request against
    the routes is the framework's work and is not modelled. *)

(** The body of [POST /lineage/record]. *)
Record TransformationRecord : Type := {
  tr_dataset_id : string;
  tr_operation : string;
  tr_source_dataset_id : option string;
  tr_metadata : option (list (string * Json))
}.

(** [record.metadata] as the Python object it is: a [dict] or [None]. *)
Definition metadata_object (metadata : option (list (string * Json))) : Json :=
  match metadata with
  | Some d => JDict d
  | None => JNull
  end.

(** The dictionary [record_transformation] answers with. *)
Record Recorded : Type := {
  recorded_status : string;
  recorded_record_id : Z;
  recorded_dataset_id : string;
  recorded_message : string
}.

Record LineageResponse : Type := {
  lineage_dataset_id : string;
  lineage_records_of : list LineageRecord
}.

Record LineageGraphResponse : Type := {
  graph_dataset_id : string;
  graph_of : Graph
}.

(** What a handler leaves to the framework: a body, or the
    [HTTPException] it raised. *)
Inductive response (A : Type) : Type :=
  | Respond (body : A)
  | HTTPException (status_code : nat) (detail : string).
Arguments Respond {A} body.
Arguments HTTPException {A} status_code detail.

Section Handlers.
Context `{!JsonCodec, !SqlEngine}.

(** [str(e)], the message of an exception. *)
Variable str : exn → string.

(** The handler of [POST /lineage/record]. *)
Definition record_transformation (record : TransformationRecord)
    (clock : Clock) (db : DB) : response Recorded * DB :=
  match record_transformation (tr_dataset_id record) (tr_operation record)
          (tr_source_dataset_id record) (metadata_object (tr_metadata record))
          clock db with
  | (Ok record_id, db) =>
      (Respond {| recorded_status := "success";
                  recorded_record_id := record_id;
                  recorded_dataset_id := tr_dataset_id record;
                  recorded_message := "Transformation recorded successfully" |},
       db)
  | (Raise e, db) =>
      (HTTPException 500 ("Error recording transformation: " +:+ str e), db)
  end.

(** The handler of [GET /lineage/{dataset_id}/graph]; [recursion_limit]
    is the stack left for [get_full_lineage_graph]. *)
Definition get_lineage_graph (recursion_limit : nat) (dataset_id : string)
    (db : DB) : response LineageGraphResponse * DB :=
  match get_lineage dataset_id db with
  | (Ok records, db) =>
      match records with
      | [] =>
          (HTTPException 404
             ("No lineage records found for dataset_id: " +:+ dataset_id), db)
      | _ :: _ =>
          match get_full_lineage_graph recursion_limit dataset_id db with
          | (Ok graph, db) =>
              (Respond {| graph_dataset_id := dataset_id; graph_of := graph |},
               db)
          | (Raise e, db) =>
              (HTTPException 500
                 ("Error retrieving lineage graph: " +:+ str e), db)
          end
      end
  | (Raise e, db) =>
      (HTTPException 500 ("Error retrieving lineage graph: " +:+ str e), db)
  end.

(** The handler of [GET /lineage/{dataset_id}]. *)
Definition get_lineage (dataset_id : string) (db : DB)
    : response LineageResponse * DB :=
  match get_lineage dataset_id db with
  | (Ok records, db) =>
      match records with
      | [] =>
          (HTTPException 404
             ("No lineage records found for dataset_id: " +:+ dataset_id), db)
      | _ :: _ =>
          (Respond {| lineage_dataset_id := dataset_id;
                      lineage_records_of := records |}, db)
      end
  | (Raise e, db) =>
      (HTTPException 500 ("Error retrieving lineage: " +:+ str e), db)
  end.

(** The handler of [GET /datasets]. *)
Definition list_datasets (db : DB) : response (list string) * DB :=
  match list_all_datasets db with
  | (Ok datasets, db) => (Respond datasets, db)
  | (Raise e, db) =>
      (HTTPException 500 ("Error listing datasets: " +:+ str e), db)
  end.

(** The handler of [GET /health]: the status and the name of the service. *)
Definition health_check : string * string :=
  ("healthy", "Data Lineage Tracking API").

End Handlers.
End Main.

(** The call a request body amounts to. *)
Definition call_of_request (record : Main.TransformationRecord) (clock : Clock)
    : Call :=
  {| call_dataset_id := Main.tr_dataset_id record;
     call_operation := Main.tr_operation record;
     call_source_dataset_id := Main.tr_source_dataset_id record;
     call_metadata := Main.metadata_object (Main.tr_metadata record);
     call_clock := clock |}.

(** ** Notions for the statements about the whole ledger *)

(** The operation entry a call leaves in a graph. *)
Definition operation_of_call (c : Call) : Operation :=
  {| operation := call_operation c;
     timestamp := utcnow_isoformat (call_clock c);
     metadata := if truthy (call_metadata c) then call_metadata c else JNull |}.

(** The rows of the datasets in [R]. *)
Definition rows_in (db : DB) (R : gset string) : list Row :=
  filter (λ row, r_dataset_id row ∈ R) (lineage_records db).

(** A linear pipeline: the first call names no source, every later call
    names the dataset of the call before it, and no dataset is empty or
    written twice. *)
Fixpoint links (previous : option string) (history : list Call) : Prop :=
  match history with
  | [] => True
  | c :: history =>
      match previous with
      | Some d => call_source_dataset_id c = Some d
      | None => call_source_dataset_id c = None
      end ∧ links (Some (call_dataset_id c)) history
  end.

Definition pipeline_shaped (history : list Call) : Prop :=
  links None history ∧
  NoDup (call_dataset_id <$> history) ∧
  Forall (λ c, call_dataset_id c ≠ EmptyString) history.

(** The path a linear pipeline reconstructs to: the newest dataset on
    top, each node over the node of its source. *)
Definition path_graph (history : list Call) : list Graph :=
  foldl (λ below c, [Node (call_dataset_id c) [operation_of_call c] below])
    [] history.

(** The ledger after the service answered a sequence of
    [POST /lineage/record] requests, each at its clock reading. *)
Definition post_all `{!JsonCodec} (str : exn → string)
    (requests : list (Main.TransformationRecord * Clock)) (db : DB) : DB :=
  foldl (λ db request,
           (Main.record_transformation str request.1 request.2 db).2)
    db requests.

(** * The example client ([example_etl.py]) *)

Module Etl.

(** The [payload] that [record_transformation] posts. *)
Definition payload (dataset_id operation : string)
    (source_dataset_id : option string)
    (metadata : option (list (string * Json))) : Main.TransformationRecord :=
  {| Main.tr_dataset_id := dataset_id;
     Main.tr_operation := operation;
     Main.tr_source_dataset_id := source_dataset_id;
     Main.tr_metadata := metadata |}.

(** The five requests of [run_etl_pipeline], in order.  The arguments are
    the lengths of its data frames, which the data frame library
    computes. *)
Definition run_etl_pipeline
    (raw_data clean_data filtered_data aggregated_data final_data : Z)
    : list Main.TransformationRecord :=
  [ payload "raw_dataset_001" "load_from_source" None
      (Some [ ("source", JStr "external_api");
              ("record_count", JInt raw_data);
              ("columns", JList [JStr "customer_id"; JStr "age";
                                 JStr "purchase_amount"; JStr "region"]);
              ("description", JStr "Initial data load from external source") ]);
    payload "clean_dataset_001" "clean_data" (Some "raw_dataset_001")
      (Some [ ("operations", JList [JStr "remove_duplicates";
                                    JStr "fill_missing_values"]);
              ("input_records", JInt raw_data);
              ("output_records", JInt clean_data);
              ("records_removed", JInt (raw_data - clean_data)) ]);
    payload "filtered_dataset_001" "filter_by_age" (Some "clean_dataset_001")
      (Some [ ("filter_condition", JStr "age >= 30");
              ("input_records", JInt clean_data);
              ("output_records", JInt filtered_data);
              ("records_filtered", JInt (clean_data - filtered_data)) ]);
    payload "aggregated_dataset_001" "aggregate_by_region"
      (Some "filtered_dataset_001")
      (Some [ ("group_by", JStr "region");
              ("aggregations",
               JDict [ ("purchase_amount",
                        JList [JStr "sum"; JStr "mean"; JStr "count"]);
                       ("age", JStr "mean") ]);
              ("input_records", JInt filtered_data);
              ("output_records", JInt aggregated_data) ]);
    payload "final_dataset_001" "enrich_with_calculations"
      (Some "aggregated_dataset_001")
      (Some [ ("new_columns", JList [JStr "purchase_per_customer"]);
              ("calculations", JList [JStr "total_purchase / customer_count"]);
              ("input_records", JInt aggregated_data);
              ("output_records", JInt final_data) ]) ].

End Etl.

(** ** Reference implementations of the interfaces *)

Global Instance key_le_dec {A} (key : A → string) : RelDecision (key_le key).
Proof. intros x y. unfold key_le. apply _. Defined.

Module Reference.

(** *** [ORDER BY]

    The rows of the scan are put one by one, the last first, into the
    rows sorted so far, each before the first row whose key is not
    smaller: rows with equal keys stay in the order of the scan. *)

Fixpoint insert_by {A} (key : A → string) (x : A) (l : list A) : list A :=
  match l with
  | [] => [x]
  | y :: l' =>
      if decide (key_le key x y) then x :: l else y :: insert_by key x l'
  end.

Definition sort_scan {A} (key : A → string) (l : list A) : list A :=
  foldr (insert_by key) [] l.

(** *** A JSON writer and reader

    The writer lays documents out as [json.dumps] does by default
    (items separated by a comma and a space, keys by a colon and a
    space).  In strings only the quote and the backslash are escaped. *)

Definition quote : ascii := "034"%char.
Definition backslash : ascii := "092"%char.

Definition special (c : ascii) : bool :=
  Ascii.eqb c quote || Ascii.eqb c backslash.

Fixpoint escape (s : list ascii) : list ascii :=
  match s with
  | [] => []
  | c :: s => if special c then backslash :: c :: escape s else c :: escape s
  end.

Definition write_string (s : string) : list ascii :=
  quote :: escape (String.list_ascii_of_string s) ++ [quote].

Fixpoint write_uint (d : Decimal.uint) : list ascii :=
  match d with
  | Decimal.Nil => []
  | Decimal.D0 d => "0"%char :: write_uint d
  | Decimal.D1 d => "1"%char :: write_uint d
  | Decimal.D2 d => "2"%char :: write_uint d
  | Decimal.D3 d => "3"%char :: write_uint d
  | Decimal.D4 d => "4"%char :: write_uint d
  | Decimal.D5 d => "5"%char :: write_uint d
  | Decimal.D6 d => "6"%char :: write_uint d
  | Decimal.D7 d => "7"%char :: write_uint d
  | Decimal.D8 d => "8"%char :: write_uint d
  | Decimal.D9 d => "9"%char :: write_uint d
  end.

Definition write_int (z : Z) : list ascii :=
  match Z.to_int z with
  | Decimal.Pos d => write_uint d
  | Decimal.Neg d => "-"%char :: write_uint d
  end.

Fixpoint write (v : Json) : list ascii :=
  match v with
  | JNull => String.list_ascii_of_string "null"
  | JBool true => String.list_ascii_of_string "true"
  | JBool false => String.list_ascii_of_string "false"
  | JInt z => write_int z
  | JStr s => write_string s
  | JList l =>
      "["%char ::
      match l with
      | [] => ["]"%char]
      | v :: l =>
          write v ++
          (fix items (l : list Json) : list ascii :=
             match l with
             | [] => ["]"%char]
             | v :: l => ","%char :: " "%char :: write v ++ items l
             end) l
      end
  | JDict d =>
      "{"%char ::
      match d with
      | [] => ["}"%char]
      | (k, v) :: d =>
          write_string k ++ ":"%char :: " "%char :: write v ++
          (fix members (d : list (string * Json)) : list ascii :=
             match d with
             | [] => ["}"%char]
             | (k, v) :: d =>
                 ","%char :: " "%char :: write_string k ++
                 ":"%char :: " "%char :: write v ++ members d
             end) d
      end
  end.

Definition write_items (l : list Json) : list ascii :=
  (fix items (l : list Json) : list ascii :=
     match l with
     | [] => ["]"%char]
     | v :: l => ","%char :: " "%char :: write v ++ items l
     end) l.

Definition write_members (d : list (string * Json)) : list ascii :=
  (fix members (d : list (string * Json)) : list ascii :=
     match d with
     | [] => ["}"%char]
     | (k, v) :: d =>
         ","%char :: " "%char :: write_string k ++
         ":"%char :: " "%char :: write v ++ members d
     end) d.

Definition dumps (v : Json) : string := String.string_of_list_ascii (write v).

(** Number of reader calls a document takes. *)
Fixpoint size (v : Json) : nat :=
  match v with
  | JList l => S (foldr (λ v n, S (size v + n)) 0 l)
  | JDict d => S (foldr (λ '(_, v) n, S (size v + n)) 0 d)
  | _ => 1
  end.

(** The text after an opening quote, up to the closing one. *)
Fixpoint read_string (s : list ascii) : option (list ascii * list ascii) :=
  match s with
  | [] => None
  | c :: s =>
      if Ascii.eqb c quote then Some ([], s)
      else if Ascii.eqb c backslash then
        match s with
        | c' :: s' =>
            if special c' then
              match read_string s' with
              | Some (t, r) => Some (c' :: t, r)
              | None => None
              end
            else None
        | [] => None
        end
      else
        match read_string s with
        | Some (t, r) => Some (c :: t, r)
        | None => None
        end
  end.

Definition digit (c : ascii) : option (Decimal.uint → Decimal.uint) :=
  if Ascii.eqb c "0" then Some Decimal.D0
  else if Ascii.eqb c "1" then Some Decimal.D1
  else if Ascii.eqb c "2" then Some Decimal.D2
  else if Ascii.eqb c "3" then Some Decimal.D3
  else if Ascii.eqb c "4" then Some Decimal.D4
  else if Ascii.eqb c "5" then Some Decimal.D5
  else if Ascii.eqb c "6" then Some Decimal.D6
  else if Ascii.eqb c "7" then Some Decimal.D7
  else if Ascii.eqb c "8" then Some Decimal.D8
  else if Ascii.eqb c "9" then Some Decimal.D9
  else None.

(** The text that follows does not continue a number. *)
Definition no_digit (s : list ascii) : Prop :=
  match s with
  | [] => True
  | c :: _ => digit c = None
  end.

(** The longest run of digits at the front. *)
Fixpoint read_uint (s : list ascii) : Decimal.uint * list ascii :=
  match s with
  | [] => (Decimal.Nil, [])
  | c :: s' =>
      match digit c with
      | Some D => let '(d, r) := read_uint s' in (D d, r)
      | None => (Decimal.Nil, s)
      end
  end.

Definition read_number (negative : bool) (s : list ascii)
    : option (Json * list ascii) :=
  match read_uint s with
  | (Decimal.Nil, _) => None
  | (d, r) =>
      Some (JInt (Z.of_int (if negative then Decimal.Neg d else Decimal.Pos d)), r)
  end.

Fixpoint expect (word s : list ascii) : option (list ascii) :=
  match word, s with
  | [], _ => Some s
  | w :: word, c :: s => if Ascii.eqb w c then expect word s else None
  | _ :: _, [] => None
  end.

Definition read_word (word : string) (v : Json) (s : list ascii)
    : option (Json * list ascii) :=
  match expect (String.list_ascii_of_string word) s with
  | Some r => Some (v, r)
  | None => None
  end.

(** [key: value], given the reader for values. *)
Definition read_member (read : list ascii → option (Json * list ascii))
    (s : list ascii) : option ((string * Json) * list ascii) :=
  match s with
  | c :: s =>
      if Ascii.eqb c quote then
        match read_string s with
        | Some (k, r) =>
            match expect [":"%char; " "%char] r with
            | Some r =>
                match read r with
                | Some (v, r) => Some ((String.string_of_list_ascii k, v), r)
                | None => None
                end
            | None => None
            end
        | None => None
        end
      else None
  | [] => None
  end.

Fixpoint read (fuel : nat) (s : list ascii) : option (Json * list ascii) :=
  match fuel with
  | O => None
  | S fuel =>
      match s with
      | [] => None
      | c :: s' =>
          if Ascii.eqb c "n" then read_word "ull" JNull s'
          else if Ascii.eqb c "t" then read_word "rue" (JBool true) s'
          else if Ascii.eqb c "f" then read_word "alse" (JBool false) s'
          else if Ascii.eqb c quote then
            match read_string s' with
            | Some (t, r) => Some (JStr (String.string_of_list_ascii t), r)
            | None => None
            end
          else if Ascii.eqb c "[" then
            match expect ["]"%char] s' with
            | Some r => Some (JList [], r)
            | None =>
                match read fuel s' with
                | Some (v, r) =>
                    match read_items fuel r with
                    | Some (l, r) => Some (JList (v :: l), r)
                    | None => None
                    end
                | None => None
                end
            end
          else if Ascii.eqb c "{" then
            match expect ["}"%char] s' with
            | Some r => Some (JDict [], r)
            | None =>
                match read_member (read fuel) s' with
                | Some (kv, r) =>
                    match read_members fuel r with
                    | Some (d, r) => Some (JDict (kv :: d), r)
                    | None => None
                    end
                | None => None
                end
            end
          else if Ascii.eqb c "-" then read_number true s'
          else read_number false s
      end
  end
with read_items (fuel : nat) (s : list ascii)
    : option (list Json * list ascii) :=
  match fuel with
  | O => None
  | S fuel =>
      match expect ["]"%char] s with
      | Some r => Some ([], r)
      | None =>
          match expect [","%char; " "%char] s with
          | Some r =>
              match read fuel r with
              | Some (v, r) =>
                  match read_items fuel r with
                  | Some (l, r) => Some (v :: l, r)
                  | None => None
                  end
              | None => None
              end
          | None => None
          end
      end
  end
with read_members (fuel : nat) (s : list ascii)
    : option (list (string * Json) * list ascii) :=
  match fuel with
  | O => None
  | S fuel =>
      match expect ["}"%char] s with
      | Some r => Some ([], r)
      | None =>
          match expect [","%char; " "%char] s with
          | Some r =>
              match read_member (read fuel) r with
              | Some (kv, r) =>
                  match read_members fuel r with
                  | Some (d, r) => Some (kv :: d, r)
                  | None => None
                  end
              | None => None
              end
          | None => None
          end
      end
  end.

(** Reading back what was written, whatever follows it. *)
Definition read_ok (v : Json) : Prop :=
  ∀ fuel rest, size v < fuel → no_digit rest →
    read fuel (write v ++ rest) = Some (v, rest).

(** The whole text must be one document. *)
Definition loads (s : string) : result Json :=
  match read (S (String.length s)) (String.list_ascii_of_string s) with
  | Some (v, []) => Ok v
  | _ => Raise JSONDecodeError
  end.

End Reference.
(** ** Reads do not write *)

Section Frame.
Context `{!JsonCodec, !SqlEngine}.

Lemma get_lineage_frame d db : (get_lineage d db).2 = db.
Proof.
  unfold get_lineage, mbind, M_bind, execute_select_lineage, lift.
  by destruct (fetch_records (select_lineage d db) []).
Qed.

Lemma list_all_datasets_frame db : (list_all_datasets db).2 = db.
Proof. done. Qed.

Lemma for_records_frame rec records :
  (∀ cur pg v db, (rec cur pg v db).2 = db) →
  ∀ pg v db, (for_records rec records pg v db).2 = db.
Proof.
  intros Hrec. induction records as [|record records IH]; intros pg v db.
  - done.
  - simpl. destruct (rec_source_dataset_id record) as [src|]; [|apply IH].
    destruct (truthy_str src); [|apply IH].
    unfold mbind, M_bind.
    specialize (Hrec src (Node src [] []) v db).
    destruct (rec src (Node src [] []) v db) as [[[sg v']|e] db']; simpl in *.
    + subst db'. apply IH.
    + done.
Qed.

Lemma build_graph_frame frames :
  ∀ cur pg v db, (build_graph frames cur pg v db).2 = db.
Proof.
  induction frames as [|frames IH]; intros cur pg v db; simpl.
  - done.
  - case_decide; [done|].
    unfold mbind, M_bind.
    pose proof (get_lineage_frame cur db) as Hg.
    destruct (get_lineage cur db) as [[records|e] db']; simpl in *; subst db'.
    + by apply for_records_frame.
    + done.
Qed.

Lemma get_full_lineage_graph_frame limit d db :
  (get_full_lineage_graph limit d db).2 = db.
Proof.
  unfold get_full_lineage_graph, mbind, M_bind.
  pose proof (build_graph_frame limit d (Node d [] []) ∅ db) as Hb.
  by destruct (build_graph _ _ _ _ _) as [[[g v]|e] db']; simpl in *.
Qed.
End Frame.

(** ** Well-formed databases *)

Section Wf.
Context `{!JsonCodec, !SqlEngine}.

Lemma init_db_wf : db_wf init_db.
Proof. split; unfold init_db; simpl; [constructor..|done]. Qed.

Lemma load_metadata_stored md :
  load_metadata (if truthy md then Some (json_dumps md) else None)
  = Ok (if truthy md then md else JNull).
Proof.
  destruct (truthy md); simpl; [|done].
  unfold truthy_str. destruct (String.eqb_spec (json_dumps md) EmptyString) as [E|_].
  - by apply json_dumps_nonempty in E.
  - apply json_loads_dumps.
Qed.

Lemma metadata_of_row_of_call rowid c :
  metadata_of (row_of_call rowid c) =
    if truthy (call_metadata c) then call_metadata c else JNull.
Proof. unfold metadata_of. simpl. by rewrite load_metadata_stored. Qed.

Lemma record_transformation_wf d op src md clk db :
  db_wf db → db_wf (record_transformation d op src md clk db).2.
Proof.
  intros [Hl Hi Hs Hn]. unfold record_transformation, execute_insert.
  case_decide; simpl; [|by split].
  split; simpl.
  - apply Forall_app; split; [done|]. constructor; [|done]. simpl.
    by rewrite load_metadata_stored.
  - rewrite fmap_app. apply StronglySorted_app_2; [|done|]; simpl.
    + intros x1 x2 Hx1 ->%list_elem_of_singleton.
      apply list_elem_of_fmap in Hx1 as (row & -> & Hrow).
      rewrite Forall_forall in Hs. specialize (Hs _ Hrow). lia.
    + repeat constructor.
  - apply Forall_app; split.
    + eapply Forall_impl; [done|]. simpl. lia.
    + constructor; [|done]. simpl. lia.
  - lia.
Qed.

Lemma ledger_snoc history c :
  ledger (history ++ [c]) = (append c (ledger history)).2.
Proof. unfold ledger. by rewrite foldl_app. Qed.

Lemma ledger_wf history : db_wf (ledger history).
Proof.
  induction history as [|c history IH] using rev_ind.
  - apply init_db_wf.
  - rewrite ledger_snoc. by apply record_transformation_wf.
Qed.

Lemma select_lineage_Permutation d db : select_lineage d db ≡ₚ rows_of db d.
Proof. apply order_by_Permutation. Qed.

Lemma select_lineage_Sorted d db :
  Sorted (key_le r_timestamp) (select_lineage d db).
Proof. apply order_by_Sorted. Qed.

Lemma elem_of_select_lineage d db row :
  row ∈ select_lineage d db ↔ row ∈ lineage_records db ∧ r_dataset_id row = d.
Proof.
  rewrite select_lineage_Permutation. unfold rows_of.
  rewrite list_elem_of_filter. tauto.
Qed.

Lemma fetch_records_ok rows acc :
  Forall (λ row, is_ok (load_metadata (r_metadata row))) rows →
  fetch_records rows acc = Ok (acc ++ (record_of <$> rows)).
Proof.
  intros Hrows. revert acc.
  induction Hrows as [|row rows Hrow _ IH]; intros acc; simpl.
  - by rewrite app_nil_r.
  - unfold record_of at 1, metadata_of.
    destruct (load_metadata (r_metadata row)) as [md|e]; [|done].
    by rewrite IH, <-app_assoc.
Qed.

(** On a well-formed database a lookup returns the selected rows, each
    turned into a record, and never raises. *)
Lemma get_lineage_ok d db :
  db_wf db → get_lineage d db = (Ok (records_of db d), db).
Proof.
  intros Hwf. unfold get_lineage, mbind, M_bind, execute_select_lineage, lift.
  rewrite fetch_records_ok; [done|].
  apply Forall_forall. intros row [Hrow _]%elem_of_select_lineage.
  pose proof (wf_loads _ Hwf) as Hl. rewrite Forall_forall in Hl. auto.
Qed.
End Wf.

(** ** Rows in the order of their ids *)

Lemma ids_of_filter_sorted (P : Row → Prop) `{!∀ row, Decision (P row)} rows :
  StronglySorted Z.lt (r_id <$> rows) →
  StronglySorted Z.lt (r_id <$> filter P rows).
Proof.
  induction rows as [|row rows IH]; intros Hs; [constructor|].
  apply StronglySorted_inv in Hs as [Hs Hrow].
  rewrite filter_cons. case_decide; [|by apply IH].
  constructor; [by apply IH|].
  rewrite Forall_forall in Hrow |- *.
  intros x (row' & -> & [_ Hrow']%list_elem_of_filter)%list_elem_of_fmap.
  by apply Hrow, list_elem_of_fmap_2.
Qed.

(** A list sorted by key in which the rows of each key ascend in [id]
    is sorted by key, then [id]. *)
Lemma sorted_by_key_then_id {A} (key : A → string) (id : A → Z) (l : list A) :
  StronglySorted (key_le key) l →
  (∀ k, StronglySorted Z.lt (id <$> filter (λ x, key x = k) l)) →
  StronglySorted
    (λ a b, strict String.le (key a) (key b) ∨
            (key a = key b ∧ (id a < id b)%Z)) l.
Proof.
  induction 1 as [|a l Hl IH Ha]; intros Hids; [constructor|].
  constructor.
  - apply IH. intros k. specialize (Hids k). rewrite filter_cons in Hids.
    case_decide; [|done]. by apply StronglySorted_inv in Hids as [? _].
  - rewrite Forall_forall in Ha |- *. intros b Hb.
    destruct (decide (key a = key b)) as [Hkey|Hkey].
    + right. split; [done|].
      specialize (Hids (key a)). rewrite filter_cons in Hids.
      rewrite decide_True in Hids by done.
      apply StronglySorted_inv in Hids as [_ Hlt].
      rewrite Forall_forall in Hlt.
      apply Hlt, list_elem_of_fmap_2, list_elem_of_filter. done.
    + left. split; [by apply Ha|]. intros Hba. apply Hkey.
      apply (anti_symm String.le); [by apply Ha|done].
Qed.

(** ** The traversal *)

Section Traversal.
Context `{!JsonCodec, !SqlEngine}.

Lemma walk_app db v l1 vm l2 v' :
  walk db v l1 vm → walk db vm l2 v' → walk db v (l1 ++ l2) v'.
Proof.
  induction 1; intros Hl2; simpl; [done|..].
  - apply walk_seen; auto.
  - apply walk_new; auto.
Qed.

Lemma walk_app_inv db l1 : ∀ v l2 v',
  walk db v (l1 ++ l2) v' → ∃ vm, walk db v l1 vm ∧ walk db vm l2 v'.
Proof.
  induction l1 as [|n l1 IH]; intros v l2 v' Hw; simpl in *.
  - exists v. split; [constructor|done].
  - inversion Hw as [|? ? ? ? Hin Ht Hw'|? ? ? ? Hnin He Hw']; subst.
    + destruct (IH _ _ _ Hw') as (vm & ? & ?).
      exists vm. split; [by apply walk_seen|done].
    + destruct (IH _ _ _ Hw') as (vm & ? & ?).
      exists vm. split; [by apply walk_new|done].
Qed.

(** The visited set only grows, by the datasets of the nodes walked. *)
Lemma walk_visited db v nodes v' :
  walk db v nodes v' → v' = v ∪ list_to_set (dataset_id <$> nodes).
Proof.
  induction 1 as [v|v n nodes v' Hin _ _ IH|v n nodes v' _ _ _ IH]; simpl.
  - set_solver.
  - rewrite IH. set_solver.
  - rewrite IH. set_solver.
Qed.

Lemma walk_shape db v nodes v' :
  walk db v nodes v' → Forall (λ n, truncated n ∨ expanded db n) nodes.
Proof. induction 1; constructor; auto. Qed.

(** A node met after another node of the same dataset is truncated. *)
Lemma walk_later_truncated db v l1 n l2 v' :
  walk db v (l1 ++ n :: l2) v' →
  dataset_id n ∈ v ∪ list_to_set (dataset_id <$> l1) → truncated n.
Proof.
  intros (vm & H1 & H2)%walk_app_inv Hin.
  apply walk_visited in H1 as ->.
  by inversion H2; subst.
Qed.

(** A node whose dataset was not met before is expanded. *)
Lemma walk_first_expanded db v l1 n l2 v' :
  walk db v (l1 ++ n :: l2) v' →
  dataset_id n ∉ v ∪ list_to_set (dataset_id <$> l1) → expanded db n.
Proof.
  intros (vm & H1 & H2)%walk_app_inv Hin.
  apply walk_visited in H1 as ->.
  by inversion H2; subst.
Qed.

Lemma graph_eta g : Node (dataset_id g) (operations g) (sources g) = g.
Proof. by destruct g. Qed.

Lemma preorder_unfold g : preorder g = g :: (sources g ≫= preorder).
Proof. by destruct g. Qed.

Lemma followed_source_record_of row :
  followed_source (record_of row) =
    match r_source_dataset_id row with
    | Some src => if truthy_str src then Some src else None
    | None => None
    end.
Proof. done. Qed.

Lemma truthy_str_true s : truthy_str s = true ↔ s ≠ EmptyString.
Proof.
  unfold truthy_str. destruct (String.eqb_spec s EmptyString); simpl; split; congruence.
Qed.

(** The sources a lookup of [d] follows are the targets of [d]'s edges. *)
Lemma elem_of_followed_sources db d s :
  s ∈ omap followed_source (records_of db d) ↔ edge db d s.
Proof.
  unfold records_of, edge. rewrite list_elem_of_omap. split.
  - intros (record & Hin & Hs).
    apply list_elem_of_fmap in Hin as (row & -> & Hrow).
    apply elem_of_select_lineage in Hrow as [Hrow Hd].
    rewrite followed_source_record_of in Hs.
    destruct (r_source_dataset_id row) as [src|] eqn:Hsrc; [|done].
    destruct (truthy_str src) eqn:Ht; [|done].
    injection Hs as ->. apply truthy_str_true in Ht. eauto.
  - intros (row & Hrow & Hd & Hsrc & Hne).
    exists (record_of row). split.
    + apply list_elem_of_fmap. exists row. split; [done|].
      by apply elem_of_select_lineage.
    + rewrite followed_source_record_of, Hsrc.
      apply truthy_str_true in Hne. by rewrite Hne.
Qed.

Section Loop.
Variable db : DB.
Variable rec : string → Graph → gset string → M (Graph * gset string).
Hypothesis rec_frame : ∀ cur pg v, (rec cur pg v db).2 = db.
Hypothesis rec_walk : ∀ cur v g v' db',
  rec cur (Node cur [] []) v db = (Ok (g, v'), db') →
  dataset_id g = cur ∧ walk db v (preorder g) v'.

(** What a completed loop has appended to the parent. *)
Lemma for_records_walk records : ∀ pg v pg' v' db',
  for_records rec records pg v db = (Ok (pg', v'), db') →
  ∃ new,
    pg' = Node (dataset_id pg)
            (operations pg ++ (operation_of <$> records))
            (sources pg ++ new) ∧
    dataset_id <$> new = omap followed_source records ∧
    walk db v (new ≫= preorder) v'.
Proof.
  induction records as [|record records IH]; intros pg v pg' v' db' Hrun.
  - injection Hrun as <- <- _. exists []. rewrite !app_nil_r, graph_eta.
    repeat split. constructor.
  - simpl in Hrun.
    assert (omap followed_source (record :: records) =
            match followed_source record with
            | Some s => s :: omap followed_source records
            | None => omap followed_source records
            end) as -> by done.
    unfold followed_source at 1.
    destruct (rec_source_dataset_id record) as [src|].
    2:{ apply IH in Hrun as (new & -> & Hids & Hw). exists new. simpl.
        by rewrite <-app_assoc. }
    destruct (truthy_str src).
    2:{ apply IH in Hrun as (new & -> & Hids & Hw). exists new. simpl.
        by rewrite <-app_assoc. }
    unfold mbind, M_bind in Hrun.
    pose proof (rec_frame src (Node src [] []) v) as Hf.
    destruct (rec src (Node src [] []) v db) as [[[sg v1]|e] db1] eqn:Hrec;
      [|done].
    simpl in Hf. subst db1.
    apply rec_walk in Hrec as [Hid Hsg].
    apply IH in Hrun as (new & -> & Hids & Hw).
    exists (sg :: new). simpl. rewrite <-!app_assoc. simpl.
    split; [done|]. split; [by f_equal|].
    by eapply walk_app.
Qed.
End Loop.

Lemma build_graph_S db frames cur pg v :
  db_wf db →
  build_graph (S frames) cur pg v db =
    if decide (cur ∈ v) then (Ok (pg, v), db)
    else for_records (build_graph frames) (records_of db cur) pg
           ({[cur]} ∪ v) db.
Proof.
  intros Hwf. simpl. case_decide; [done|].
  unfold mbind, M_bind. by rewrite get_lineage_ok.
Qed.

(** A completed [build_graph] call leaves a node for [cur] whose
    preorder is a walk from the visited set it started with. *)
Lemma build_graph_walk db frames : db_wf db → ∀ cur v g v' db',
  build_graph frames cur (Node cur [] []) v db = (Ok (g, v'), db') →
  dataset_id g = cur ∧ walk db v (preorder g) v'.
Proof.
  intros Hwf. induction frames as [|frames IH]; intros cur v g v' db' Hrun.
  - done.
  - simpl in Hrun. case_decide as Hin.
    + injection Hrun as <- <- _. split; [done|]. simpl.
      apply walk_seen; [done|done|constructor].
    + unfold mbind, M_bind in Hrun. rewrite get_lineage_ok in Hrun by done.
      eapply for_records_walk in Hrun as (new & -> & Hids & Hw);
        [|intros; apply build_graph_frame|apply IH].
      simpl in *. split; [done|].
      apply walk_new; [done| |done]. by split.
Qed.
End Traversal.

(** ** Termination and reachability *)

Section Termination.
Context `{!JsonCodec, !SqlEngine}.

Lemma Graph_nested_ind (P : Graph → Prop) :
  (∀ id ops srcs, Forall P srcs → P (Node id ops srcs)) → ∀ g, P g.
Proof.
  intros Hnode. fix IH 1. intros [id ops srcs]. apply Hnode.
  induction srcs as [|s srcs IHs]; constructor; [apply IH|apply IHs].
Qed.

Lemma height_le_iff g m :
  height g ≤ m ↔ Forall (λ s, height s < m) (sources g).
Proof.
  destruct g as [id ops srcs]; simpl.
  induction srcs as [|s srcs IH]; simpl.
  - split; [constructor|lia].
  - rewrite Forall_cons, <-IH. lia.
Qed.

Lemma all_sources_closed db root : closed db ({[root]} ∪ all_sources db).
Proof.
  intros x s _ (row & Hrow & _ & Hsrc & _).
  apply elem_of_union_r, elem_of_list_to_set, list_elem_of_omap. eauto.
Qed.

Section Loop.
Variables (db : DB) (R v1 : gset string) (n : nat).
Variable rec : string → Graph → gset string → M (Graph * gset string).
Hypothesis rec_total : ∀ src v, src ∈ R → v1 ⊆ v →
  ∃ g v', rec src (Node src [] []) v db = (Ok (g, v'), db) ∧ v ⊆ v' ∧
          height g < n.

Lemma for_records_total records :
  Forall (λ r, ∀ s, followed_source r = Some s → s ∈ R) records →
  ∀ pg v, v1 ⊆ v → height pg ≤ n →
  ∃ pg' v', for_records rec records pg v db = (Ok (pg', v'), db) ∧
            v ⊆ v' ∧ height pg' ≤ n.
Proof.
  induction 1 as [|record records Hrecord _ IH]; intros pg v Hv Hpg; simpl.
  - by exists pg, v.
  - assert (height (append_operation pg (operation_of record)) ≤ n) as Hpg'.
    { by rewrite height_le_iff in Hpg |- *. }
    unfold followed_source in Hrecord.
    destruct (rec_source_dataset_id record) as [src|]; [|by apply IH].
    destruct (truthy_str src); [|by apply IH].
    destruct (rec_total src v) as (sg & v2 & Hrun & Hv2 & Hsg); [auto..|].
    unfold mbind, M_bind. rewrite Hrun.
    destruct (IH (append_source (append_operation pg (operation_of record)) sg)
                v2) as (pg' & v' & Hloop & Hv' & Hh).
    { set_solver. }
    { rewrite height_le_iff in Hpg' |- *. simpl.
      apply Forall_app. split; [done|]. by constructor. }
    exists pg', v'. split; [done|]. split; [set_solver|done].
Qed.
End Loop.

Lemma records_of_in_closed db R cur :
  closed db R → cur ∈ R →
  Forall (λ r, ∀ s, followed_source r = Some s → s ∈ R) (records_of db cur).
Proof.
  intros Hclosed Hcur. apply Forall_forall. intros r Hr s Hs.
  apply (Hclosed cur); [done|].
  apply elem_of_followed_sources, list_elem_of_omap. eauto.
Qed.

(** With more frames than there are unvisited members of a closed set
    around [cur], the call completes; the graph is no deeper than that
    number. *)
Lemma build_graph_total db R : db_wf db → closed db R →
  ∀ n frames cur v, cur ∈ R → size (R ∖ v) ≤ n → n < frames →
  ∃ g v', build_graph frames cur (Node cur [] []) v db = (Ok (g, v'), db) ∧
          v ⊆ v' ∧ height g ≤ n.
Proof.
  intros Hwf Hclosed n.
  induction n as [n IH] using lt_wf_ind.
  intros [|frames] cur v Hcur Hsize Hframes; [lia|]. simpl.
  case_decide as Hin.
  { exists (Node cur [] []), v. repeat split; [done|simpl; lia]. }
  assert (size (R ∖ ({[cur]} ∪ v)) < size (R ∖ v)) as Hless.
  { apply subset_size. set_solver. }
  unfold mbind, M_bind. rewrite get_lineage_ok by done.
  destruct (for_records_total db R ({[cur]} ∪ v) n (build_graph frames))
    with (records := records_of db cur) (pg := Node cur [] [])
         (v := {[cur]} ∪ v) as (g & v' & Hrun & Hv & Hh).
  - intros src v2 Hsrc Hv2.
    destruct (IH (size (R ∖ ({[cur]} ∪ v))) ltac:(lia) frames src v2)
      as (g & v' & Hrun & Hv' & Hh); [done| |lia|].
    + apply subseteq_size. set_solver.
    + exists g, v'. repeat split; [done..|lia].
  - by apply records_of_in_closed.
  - done.
  - simpl. lia.
  - exists g, v'. split; [done|]. split; [set_solver|done].
Qed.

(** More frames do not change the outcome of a call that completed. *)
Lemma for_records_mono rec rec' records :
  (∀ cur pg v db r db',
     rec cur pg v db = (Ok r, db') → rec' cur pg v db = (Ok r, db')) →
  ∀ pg v db r db',
    for_records rec records pg v db = (Ok r, db') →
    for_records rec' records pg v db = (Ok r, db').
Proof.
  intros Hrec. induction records as [|record records IH];
    intros pg v db r db' Hrun; simpl in *; [done|].
  destruct (rec_source_dataset_id record) as [src|]; [|by apply IH].
  destruct (truthy_str src); [|by apply IH].
  unfold mbind, M_bind in *.
  destruct (rec src (Node src [] []) v db) as [[[sg v1]|e] db1] eqn:Hsrc;
    [|done].
  rewrite (Hrec _ _ _ _ _ _ Hsrc). by apply IH.
Qed.

Lemma build_graph_mono frames : ∀ frames', frames ≤ frames' →
  ∀ cur pg v db r db',
    build_graph frames cur pg v db = (Ok r, db') →
    build_graph frames' cur pg v db = (Ok r, db').
Proof.
  induction frames as [|frames IH]; intros frames' Hle cur pg v db r db' Hrun;
    [done|].
  destruct frames' as [|frames']; [lia|].
  simpl in *. case_decide; [done|].
  unfold mbind, M_bind in *.
  destruct (get_lineage cur db) as [[records|e] db1]; [|done].
  eapply for_records_mono; [|done]. apply IH. lia.
Qed.

(** *** The frames a call takes *)

Lemma for_records_sources rec records : ∀ pg v db g v' db',
  for_records rec records pg v db = (Ok (g, v'), db') →
  ∃ new, sources g = sources pg ++ new.
Proof.
  induction records as [|record records IH]; intros pg v db g v' db' Hrun;
    simpl in Hrun.
  { injection Hrun as <- _ _. exists []. by rewrite app_nil_r. }
  destruct (rec_source_dataset_id record) as [src|];
    [|by apply IH in Hrun as [new Hnew]; exists new].
  destruct (truthy_str src);
    [|by apply IH in Hrun as [new Hnew]; exists new].
  unfold mbind, M_bind in Hrun.
  destruct (rec src (Node src [] []) v db) as [[[sg v1]|e] db1]; [|done].
  apply IH in Hrun as [new Hnew]. simpl in Hnew.
  exists (sg :: new). by rewrite Hnew, <-app_assoc.
Qed.

(** A completed call completes with the same outcome on any stack
    deeper than the graph it returned. *)
Lemma for_records_lower rec rec' f records :
  (∀ cur pg v db g v' db',
     rec cur pg v db = (Ok (g, v'), db') → height g < f →
     rec' cur pg v db = (Ok (g, v'), db')) →
  ∀ pg v db g v' db',
    for_records rec records pg v db = (Ok (g, v'), db') → height g ≤ f →
    for_records rec' records pg v db = (Ok (g, v'), db').
Proof.
  intros Hrec. induction records as [|record records IH];
    intros pg v db g v' db' Hrun Hg; simpl in *; [done|].
  destruct (rec_source_dataset_id record) as [src|]; [|by apply IH].
  destruct (truthy_str src); [|by apply IH].
  unfold mbind, M_bind in *.
  destruct (rec src (Node src [] []) v db) as [[[sg v1]|e] db1] eqn:Hsrc;
    [|done].
  destruct (for_records_sources _ _ _ _ _ _ _ _ Hrun) as [new Hnew].
  simpl in Hnew.
  assert (height sg < f) as Hsg.
  { apply height_le_iff in Hg. rewrite Hnew, Forall_forall in Hg.
    apply Hg. rewrite <-app_assoc. apply elem_of_app. right. left. }
  rewrite (Hrec _ _ _ _ _ _ _ Hsrc Hsg). by apply IH.
Qed.

Lemma build_graph_lower frames : ∀ f cur pg v db g v' db',
  build_graph frames cur pg v db = (Ok (g, v'), db') → height g < f →
  build_graph f cur pg v db = (Ok (g, v'), db').
Proof.
  induction frames as [|frames IH]; intros f cur pg v db g v' db' Hrun Hg;
    [done|].
  destruct f as [|f]; [lia|].
  simpl in *. case_decide; [done|].
  unfold mbind, M_bind in *.
  destruct (get_lineage cur db) as [[records|e] db1]; [|done].
  apply (for_records_lower (build_graph frames) (build_graph f) f);
    [apply IH|done|lia].
Qed.

(** A completed call returns a graph less deep than its stack. *)
Lemma for_records_height rec f records :
  (∀ cur v db g v' db',
     rec cur (Node cur [] []) v db = (Ok (g, v'), db') → height g < f) →
  ∀ pg v db g v' db',
    for_records rec records pg v db = (Ok (g, v'), db') → height pg ≤ f →
    height g ≤ f.
Proof.
  intros Hrec. induction records as [|record records IH];
    intros pg v db g v' db' Hrun Hpg; simpl in Hrun.
  { by injection Hrun as <- _ _. }
  assert (height (append_operation pg (operation_of record)) ≤ f) as Hpg'.
  { by rewrite height_le_iff in Hpg |- *. }
  destruct (rec_source_dataset_id record) as [src|]; [|by eapply IH].
  destruct (truthy_str src); [|by eapply IH].
  unfold mbind, M_bind in Hrun.
  destruct (rec src (Node src [] []) v db) as [[[sg v1]|e] db1] eqn:Hsrc;
    [|done].
  eapply IH; [done|]. rewrite height_le_iff in Hpg' |- *. simpl.
  apply Forall_app. split; [done|]. constructor; [|done]. by eapply Hrec.
Qed.

Lemma build_graph_height frames : ∀ cur v db g v' db',
  build_graph frames cur (Node cur [] []) v db = (Ok (g, v'), db') →
  height g < frames.
Proof.
  induction frames as [|frames IH]; intros cur v db g v' db' Hrun; [done|].
  simpl in Hrun. case_decide.
  { injection Hrun as <- _ _. simpl. lia. }
  unfold mbind, M_bind in Hrun.
  destruct (get_lineage cur db) as [[records|e] db1]; [|done].
  apply for_records_height with (f := frames) in Hrun; [lia|done|simpl; lia].
Qed.

(** On a well-formed database the only exception is the stack overflow. *)
Lemma for_records_raise db rec records :
  (∀ cur pg v, (rec cur pg v db).2 = db) →
  (∀ cur pg v e db', rec cur pg v db = (Raise e, db') → e = RecursionError) →
  ∀ pg v e db',
    for_records rec records pg v db = (Raise e, db') → e = RecursionError.
Proof.
  intros Hframe Hrec. induction records as [|record records IH];
    intros pg v e db' Hrun; simpl in Hrun; [done|].
  destruct (rec_source_dataset_id record) as [src|]; [|by eapply IH].
  destruct (truthy_str src); [|by eapply IH].
  unfold mbind, M_bind in Hrun.
  pose proof (Hframe src (Node src [] []) v) as Hf.
  destruct (rec src (Node src [] []) v db) as [[[sg v1]|e1] db1] eqn:Hsrc;
    simpl in Hf; subst db1.
  - by eapply IH.
  - injection Hrun as <- _. by eapply Hrec.
Qed.

Lemma build_graph_raise db frames : db_wf db → ∀ cur pg v e db',
  build_graph frames cur pg v db = (Raise e, db') → e = RecursionError.
Proof.
  intros Hwf. induction frames as [|frames IH]; intros cur pg v e db' Hrun.
  { by injection Hrun as <- _. }
  rewrite build_graph_S in Hrun by done. case_decide; [done|].
  eapply for_records_raise; [|apply IH|done].
  intros. apply build_graph_frame.
Qed.

(** *** The visited set is the set of reachable datasets *)

Lemma preorder_self g : g ∈ preorder g.
Proof. rewrite preorder_unfold. left. Qed.

Lemma preorder_sources g : ∀ n c,
  n ∈ preorder g → c ∈ sources n → c ∈ preorder g.
Proof.
  induction g as [id ops srcs IH] using Graph_nested_ind.
  intros n c Hn Hc. simpl in *.
  apply elem_of_cons in Hn as [->|Hn].
  - right. apply list_elem_of_bind. exists c. split; [apply preorder_self|done].
  - right. apply list_elem_of_bind in Hn as (s & Hn & Hs).
    apply list_elem_of_bind. exists s. split; [|done].
    rewrite Forall_forall in IH. eauto.
Qed.

Lemma preorder_reachable db g :
  Forall (λ n, truncated n ∨ expanded db n) (preorder g) →
  ∀ n, n ∈ preorder g → reachable db (dataset_id g) (dataset_id n).
Proof.
  induction g as [id ops srcs IH] using Graph_nested_ind.
  intros Hshape n Hn. simpl in *.
  apply Forall_cons in Hshape as [Hg Hshape].
  apply elem_of_cons in Hn as [->|Hn]; [done|].
  apply list_elem_of_bind in Hn as (s & Hn & Hs).
  destruct Hg as [[_ Hg]|[_ Hg]]; simpl in *.
  { subst srcs. by apply elem_of_nil in Hs. }
  eapply rtc_l.
  - apply elem_of_followed_sources. rewrite <-Hg. by apply list_elem_of_fmap_2.
  - rewrite Forall_forall in IH. apply IH; [done| |done].
    rewrite Forall_bind, Forall_forall in Hshape. by apply Hshape.
Qed.

Lemma walk_closed db g v' :
  walk db ∅ (preorder g) v' → closed db v'.
Proof.
  intros Hw x s Hx Hedge.
  pose proof (walk_visited _ _ _ _ Hw) as ->.
  rewrite union_empty_l_L in Hx |- *.
  apply elem_of_list_to_set, list_elem_of_split_l in Hx as (i1 & i2 & Hsplit & Hfirst).
  apply fmap_app_inv in Hsplit as (l1 & l2' & -> & Hl2 & Hpre).
  symmetry in Hl2. apply fmap_cons_inv in Hl2 as (n & l2 & -> & -> & ->).
  rewrite Hpre in Hw. apply walk_first_expanded in Hw as [_ Hsrcs].
  2:{ rewrite union_empty_l_L, elem_of_list_to_set. done. }
  apply elem_of_followed_sources in Hedge. rewrite <-Hsrcs in Hedge.
  apply list_elem_of_fmap in Hedge as (c & -> & Hc).
  apply elem_of_list_to_set, list_elem_of_fmap_2.
  apply (preorder_sources g n); [|done].
  rewrite Hpre. apply elem_of_app. right. left.
Qed.

Lemma walk_reachable db g v' :
  walk db ∅ (preorder g) v' →
  ∀ x, x ∈ v' ↔ reachable db (dataset_id g) x.
Proof.
  intros Hw x. split.
  - pose proof (walk_visited _ _ _ _ Hw) as ->.
    rewrite union_empty_l_L, elem_of_list_to_set.
    intros (n & -> & Hn)%list_elem_of_fmap.
    apply preorder_reachable; [|done]. by eapply walk_shape.
  - pose proof (walk_closed _ _ _ Hw) as Hclosed.
    intros Hreach.
    unfold reachable in Hreach. revert x Hreach. apply (rtc_ind_r (λ z, z ∈ v')).
    + pose proof (walk_visited _ _ _ _ Hw) as ->.
      apply elem_of_union_r, elem_of_list_to_set, list_elem_of_fmap_2, preorder_self.
    + intros y z _ Hyz Hy. by eapply Hclosed.
Qed.

Lemma get_full_lineage_graph_walk db limit root g db' :
  db_wf db →
  get_full_lineage_graph limit root db = (Ok g, db') →
  dataset_id g = root ∧ ∃ v', walk db ∅ (preorder g) v'.
Proof.
  intros Hwf Hrun. unfold get_full_lineage_graph, mbind, M_bind in Hrun.
  destruct (build_graph limit root (Node root [] []) ∅ db)
    as [[[g' v']|e] db1] eqn:Hbuild; [|done].
  injection Hrun as -> _.
  apply build_graph_walk in Hbuild as [? ?]; eauto.
Qed.

(** The graph of [root]: the one the reconstruction returns on every
    stack deep enough for it. *)
Lemma get_full_lineage_graph_total db root :
  db_wf db →
  ∃ (R : gset string) (g : Graph) (v' : gset string),
    (∀ x, x ∈ R ↔ reachable db root x) ∧
    height g ≤ size R ∧
    dataset_id g = root ∧
    walk db ∅ (preorder g) v' ∧
    ∀ frames,
      get_full_lineage_graph frames root db =
        (if decide (height g < frames) then Ok g else Raise RecursionError, db).
Proof.
  intros Hwf.
  set (R0 := {[root]} ∪ all_sources db).
  destruct (build_graph_total db R0 Hwf (all_sources_closed db root)
              (size R0) (S (size R0)) root ∅)
    as (g0 & R & Hrun0 & _ & _); [set_solver|apply subseteq_size; set_solver|lia|].
  apply build_graph_walk in Hrun0 as [Hroot Hwalk0]; [|done].
  pose proof (walk_reachable _ _ _ Hwalk0) as Hreach. rewrite Hroot in Hreach.
  destruct (build_graph_total db R Hwf (walk_closed _ _ _ Hwalk0)
              (size R) (S (size R)) root ∅)
    as (g & v' & Hrun & _ & Hheight);
    [by apply Hreach|apply subseteq_size; set_solver|lia|].
  destruct (build_graph_walk _ _ Hwf _ _ _ _ _ Hrun) as [Hid Hwalk].
  exists R, g, v'. repeat split; [apply Hreach..|done|done|done|].
  intros frames. unfold get_full_lineage_graph, mbind, M_bind.
  case_decide as Hframes.
  - by rewrite (build_graph_lower _ _ _ _ _ _ _ _ _ Hrun Hframes).
  - pose proof (build_graph_frame frames root (Node root [] []) ∅ db) as Hf.
    destruct (build_graph frames root (Node root [] []) ∅ db)
      as [[[g' v'']|e] db'] eqn:Hrun'; simpl in Hf; subst db'.
    + pose proof (build_graph_height _ _ _ _ _ _ _ Hrun') as Hg'.
      destruct (Nat.le_gt_cases frames (S (size R))) as [Hle|Hgt]; [|lia].
      rewrite (build_graph_mono _ _ Hle _ _ _ _ _ _ Hrun') in Hrun.
      injection Hrun as -> _. lia.
    + by rewrite (build_graph_raise _ _ Hwf _ _ _ _ _ Hrun').
Qed.

Lemma length_followed_sources records :
  length (omap followed_source records) ≤ length records.
Proof.
  induction records as [|r records IH]; simpl; [done|].
  destruct (followed_source r); simpl;
    [apply le_n_S|apply Nat.le_succ_r; left]; exact IH.
Qed.

Lemma expanded_sources_le db n :
  expanded db n → length (sources n) ≤ length (operations n).
Proof.
  intros [-> Hsrc]. apply (f_equal length) in Hsrc.
  rewrite !length_fmap in *. rewrite Hsrc. apply length_followed_sources.
Qed.
End Termination.

(** ** The reference implementations meet the interfaces *)

Global Instance key_le_total {A} (key : A → string) : Total (key_le key).
Proof. intros x y. unfold key_le. apply (total String.le). Qed.

Global Instance key_le_trans {A} (key : A → string) : Transitive (key_le key).
Proof. intros x y z. unfold key_le. apply (transitivity (R:=String.le)). Qed.

Module ReferenceFacts.
Import Reference.

Lemma insert_by_Permutation {A} (key : A → string) x (l : list A) :
  insert_by key x l ≡ₚ x :: l.
Proof.
  induction l as [|y l IH]; simpl; [done|].
  case_decide; [done|]. by rewrite IH, Permutation_swap.
Qed.

Lemma sort_scan_Permutation {A} (key : A → string) (l : list A) :
  sort_scan key l ≡ₚ l.
Proof.
  induction l as [|x l IH]; simpl; [done|].
  by rewrite insert_by_Permutation, IH.
Qed.

Lemma insert_by_StronglySorted {A} (key : A → string) x (l : list A) :
  StronglySorted (key_le key) l →
  StronglySorted (key_le key) (insert_by key x l).
Proof.
  induction 1 as [|y l Hl IH Hy]; simpl; [repeat constructor|].
  case_decide as Hxy.
  - constructor; [by constructor|]. constructor; [done|].
    eapply Forall_impl; [exact Hy|]. intros z Hyz. by transitivity y.
  - constructor; [done|].
    rewrite insert_by_Permutation. constructor; [|done].
    by destruct (total (key_le key) x y).
Qed.

Lemma sort_scan_Sorted {A} (key : A → string) (l : list A) :
  Sorted (key_le key) (sort_scan key l).
Proof.
  apply StronglySorted_Sorted.
  induction l as [|x l IH]; simpl; [constructor|].
  by apply insert_by_StronglySorted.
Qed.

Lemma filter_insert_by {A} (key : A → string) (k : string) x (l : list A) :
  filter (λ y, key y = k) (insert_by key x l)
  = filter (λ y, key y = k) (x :: l).
Proof.
  induction l as [|y l IH]; simpl; [done|].
  case_decide as Hxy; [done|].
  rewrite (filter_cons _ y), IH, !filter_cons.
  destruct (decide (key y = k)) as [Hy|Hy], (decide (key x = k)) as [Hx|Hx];
    try done.
  destruct Hxy. unfold key_le. by rewrite Hx, Hy.
Qed.

Lemma sort_scan_stable {A} (key : A → string) (l : list A) (k : string) :
  filter (λ x, key x = k) (sort_scan key l) = filter (λ x, key x = k) l.
Proof.
  induction l as [|x l IH]; simpl; [done|].
  by rewrite filter_insert_by, !filter_cons, IH.
Qed.

Lemma expect_app word rest : expect word (word ++ rest) = Some rest.
Proof.
  induction word as [|w word IH]; simpl; [done|].
  by rewrite Ascii.eqb_refl.
Qed.

Lemma special_false c :
  special c = false → Ascii.eqb c quote = false ∧ Ascii.eqb c backslash = false.
Proof. unfold special. by intros ?%orb_false_elim. Qed.

Lemma read_string_escape t rest :
  read_string (escape t ++ quote :: rest) = Some (t, rest).
Proof.
  induction t as [|c t IH]; simpl.
  - done.
  - destruct (special c) eqn:Hc; simpl.
    + by rewrite Hc, IH.
    + apply special_false in Hc as [-> ->]. by rewrite IH.
Qed.

Lemma read_write_uint d rest :
  no_digit rest → read_uint (write_uint d ++ rest) = (d, rest).
Proof.
  intros Hrest. induction d; simpl; try by rewrite IHd.
  destruct rest as [|c rest]; simpl in *; [done|]. by rewrite Hrest.
Qed.

Lemma to_int_nonnil z :
  match Z.to_int z with
  | Decimal.Pos d | Decimal.Neg d => d ≠ Decimal.Nil
  end.
Proof. destruct z; simpl; [done|apply Unsigned.to_uint_nonnil..]. Qed.

Lemma read_number_write_uint negative d rest :
  d ≠ Decimal.Nil → no_digit rest →
  read_number negative (write_uint d ++ rest)
  = Some (JInt (Z.of_int (if negative then Decimal.Neg d else Decimal.Pos d)),
          rest).
Proof.
  intros Hd Hrest. unfold read_number. rewrite read_write_uint by done.
  by destruct d.
Qed.

Lemma read_write_int fuel z rest :
  no_digit rest → read (S fuel) (write_int z ++ rest) = Some (JInt z, rest).
Proof.
  intros Hrest. unfold write_int.
  pose proof (to_int_nonnil z) as Hz. pose proof (DecimalZ.of_to z) as Hof.
  destruct (Z.to_int z) as [d|d].
  - rewrite <-Hof.
    destruct d; [done|..]; apply (read_number_write_uint false); done.
  - simpl. rewrite <-Hof. by apply (read_number_write_uint true).
Qed.

Lemma Json_nested_ind (P : Json → Prop) :
  P JNull → (∀ b, P (JBool b)) → (∀ z, P (JInt z)) → (∀ s, P (JStr s)) →
  (∀ l, Forall P l → P (JList l)) →
  (∀ d, Forall (λ kv, P kv.2) d → P (JDict d)) →
  ∀ v, P v.
Proof.
  intros Hnull Hbool Hint Hstr Hlist Hdict. fix IH 1. intros [|b|z|s|l|d].
  - apply Hnull.
  - apply Hbool.
  - apply Hint.
  - apply Hstr.
  - apply Hlist. induction l as [|v l IHl]; constructor; [apply IH|apply IHl].
  - apply Hdict.
    induction d as [|[k v] d IHd]; constructor; [apply IH|apply IHd].
Qed.

Lemma write_list_cons v l :
  write (JList (v :: l)) = "["%char :: write v ++ write_items l.
Proof. done. Qed.

Lemma write_items_cons v l :
  write_items (v :: l) = ","%char :: " "%char :: write v ++ write_items l.
Proof. done. Qed.

Lemma write_dict_cons k v d :
  write (JDict ((k, v) :: d)) =
    "{"%char :: write_string k ++ ":"%char :: " "%char :: write v ++
    write_members d.
Proof. done. Qed.

Lemma write_members_cons k v d :
  write_members ((k, v) :: d) =
    ","%char :: " "%char :: write_string k ++ ":"%char :: " "%char ::
    write v ++ write_members d.
Proof. done. Qed.

Lemma no_digit_items l rest : no_digit (write_items l ++ rest).
Proof. by destruct l. Qed.

Lemma no_digit_members d rest : no_digit (write_members d ++ rest).
Proof. by destruct d as [|[k v] d]. Qed.

(** No document starts with a closing bracket. *)
Lemma expect_close_write v rest :
  expect ["]"%char] (write v ++ rest) = None.
Proof.
  destruct v as [|[|]|z|s|l|d]; try done.
  unfold write, write_int. pose proof (to_int_nonnil z) as Hz.
  destruct (Z.to_int z) as [d|d]; [|done]. by destruct d.
Qed.

Lemma read_items_write l : Forall read_ok l →
  ∀ fuel rest, foldr (λ v n, S (size v + n)) 0 l < fuel →
    read_items fuel (write_items l ++ rest) = Some (l, rest).
Proof.
  induction 1 as [|v l Hv _ IH]; intros [|fuel] rest Hfuel; try lia.
  - done.
  - simpl in Hfuel. rewrite write_items_cons. simpl. rewrite <-app_assoc.
    rewrite Hv; [|lia|apply no_digit_items]. rewrite IH; [done|lia].
Qed.

Lemma read_member_write k v fuel rest :
  read_ok v → size v < fuel → no_digit rest →
  read_member (read fuel)
    (write_string k ++ ":"%char :: " "%char :: write v ++ rest)
  = Some ((k, v), rest).
Proof.
  intros Hv Hfuel Hrest. unfold write_string; simpl. rewrite <-app_assoc.
  simpl. rewrite read_string_escape. simpl. rewrite Hv by done.
  by rewrite String.string_of_list_ascii_of_string.
Qed.

Lemma read_members_write d : Forall (λ kv, read_ok kv.2) d →
  ∀ fuel rest, foldr (λ '(_, v) n, S (size v + n)) 0 d < fuel →
    read_members fuel (write_members d ++ rest) = Some (d, rest).
Proof.
  induction 1 as [|[k v] d Hv _ IH]; intros [|fuel] rest Hfuel; try lia.
  - done.
  - simpl in Hfuel. rewrite write_members_cons.
    change (read_members (S fuel) ?s) with
      (match expect ["}"%char] s with
       | Some r => Some ([], r)
       | None =>
           match expect [","%char; " "%char] s with
           | Some r =>
               match read_member (read fuel) r with
               | Some (kv, r) =>
                   match read_members fuel r with
                   | Some (d, r) => Some (kv :: d, r)
                   | None => None
                   end
               | None => None
               end
           | None => None
           end
       end).
    cbn [expect app Ascii.eqb Bool.eqb]. rewrite <-!app_assoc.
    cbn [app]. rewrite <-app_assoc.
    rewrite read_member_write; [|done|lia|apply no_digit_members].
    rewrite IH; [done|lia].
Qed.

Lemma read_write v : read_ok v.
Proof.
  induction v as [|b|z|s|l IH|d IH] using Json_nested_ind;
    intros [|fuel] rest Hfuel Hrest; try (simpl in Hfuel; lia).
  - done.
  - by destruct b.
  - by apply read_write_int.
  - unfold write, write_string. simpl. rewrite <-app_assoc. simpl.
    rewrite read_string_escape.
    by rewrite String.string_of_list_ascii_of_string.
  - destruct IH as [|v l Hv Hl]; [done|].
    rewrite write_list_cons. simpl in Hfuel.
    change (read (S fuel) (("["%char :: ?s) ++ rest)) with
      (match expect ["]"%char] (s ++ rest) with
       | Some r => Some (JList [], r)
       | None =>
           match read fuel (s ++ rest) with
           | Some (v, r) =>
               match read_items fuel r with
               | Some (l, r) => Some (JList (v :: l), r)
               | None => None
               end
           | None => None
           end
       end).
    rewrite <-app_assoc, expect_close_write.
    rewrite Hv; [|lia|apply no_digit_items].
    rewrite read_items_write; [done|done|lia].
  - destruct IH as [|[k v] d Hv Hd]; [done|].
    rewrite write_dict_cons. simpl in Hfuel.
    change (read (S fuel) (("{"%char :: ?s) ++ rest)) with
      (match expect ["}"%char] (s ++ rest) with
       | Some r => Some (JDict [], r)
       | None =>
           match read_member (read fuel) (s ++ rest) with
           | Some (kv, r) =>
               match read_members fuel r with
               | Some (d, r) => Some (JDict (kv :: d), r)
               | None => None
               end
           | None => None
           end
       end).
    assert (∀ t, expect ["}"%char] (write_string k ++ t) = None) as Hclose
      by done.
    rewrite <-app_assoc, Hclose. cbn [app]. rewrite <-app_assoc.
    rewrite read_member_write; [|done|lia|apply no_digit_members].
    rewrite read_members_write; [done|done|lia].
Qed.

Lemma length_write_int z : 1 ≤ length (write_int z).
Proof.
  unfold write_int. pose proof (to_int_nonnil z) as Hz.
  destruct (Z.to_int z) as [d|d]; [|simpl; lia].
  destruct d; simpl; [done|lia..].
Qed.

(** A document is at least as long as the reader calls it takes. *)
Lemma size_le_length v : size v ≤ length (write v).
Proof.
  induction v as [|b|z|s|l IH|d IH] using Json_nested_ind.
  - simpl. lia.
  - destruct b; simpl; lia.
  - apply length_write_int.
  - simpl. lia.
  - destruct IH as [|v l Hv Hl]; [simpl; lia|].
    rewrite write_list_cons. simpl. rewrite length_app.
    assert (S (foldr (λ v n, S (size v + n)) 0 l) ≤ length (write_items l));
      [|lia].
    clear Hv. induction Hl as [|w l Hw _ IHl]; [done|].
    rewrite write_items_cons. simpl. rewrite length_app. lia.
  - destruct IH as [|[k v] d Hv Hd]; [simpl; lia|].
    rewrite write_dict_cons. simpl in *. rewrite !length_app. simpl.
    rewrite length_app.
    assert (S (foldr (λ '(_, v) n, S (size v + n)) 0 d)
            ≤ length (write_members d)); [|lia].
    clear Hv. induction Hd as [|[k' w] d Hw _ IHd]; [done|].
    rewrite write_members_cons. simpl in *. rewrite !length_app. simpl.
    rewrite length_app. lia.
Qed.

Lemma length_string_of_list_ascii l :
  String.length (String.string_of_list_ascii l) = length l.
Proof. induction l; simpl; congruence. Qed.

Lemma loads_dumps v : loads (dumps v) = Ok v.
Proof.
  unfold loads, dumps.
  rewrite String.list_ascii_of_string_of_list_ascii, length_string_of_list_ascii.
  pose proof (read_write v (S (length (write v))) []) as Hread.
  rewrite app_nil_r in Hread. rewrite Hread; [done| |done].
  pose proof (size_le_length v). lia.
Qed.

Lemma dumps_nonempty v : dumps v ≠ EmptyString.
Proof.
  unfold dumps. intros Hempty.
  apply (f_equal String.length) in Hempty.
  rewrite length_string_of_list_ascii in Hempty. simpl in Hempty.
  pose proof (size_le_length v). destruct v; simpl in *; lia.
Qed.
End ReferenceFacts.

Module Instances.
(** Python's [json] module, on the documents of [Json]. *)
Definition json : JsonCodec :=
  {| json_dumps := Reference.dumps;
     json_loads := Reference.loads;
     json_loads_dumps := ReferenceFacts.loads_dumps;
     json_dumps_nonempty := ReferenceFacts.dumps_nonempty |}.

(** SQLite on the queries of [LineageDB]: a stable sort of what the scan
    of the table delivers. *)
Definition scan : SqlEngine :=
  {| order_by := @Reference.sort_scan;
     order_by_Permutation := @ReferenceFacts.sort_scan_Permutation;
     order_by_Sorted := @ReferenceFacts.sort_scan_Sorted |}.

Lemma scan_stable : @StableSqlEngine scan.
Proof. intros A key l k. apply ReferenceFacts.sort_scan_stable. Qed.
End Instances.

(** * The statements of the design document *)

Section Claims.
Context `{!JsonCodec, !SqlEngine}.

(** ** Reads (C9) *)

(** C9.  Lookups, graph reconstructions and dataset listings leave the
    database as they found it: after any sequence of reads the ledger is
    the one before, and so is the answer of every later lookup. *)
Theorem reads_leave_ledger_unchanged (reads : list Read) (db : DB) :
  foldl run_read db reads = db ∧
  ∀ d, get_lineage d (foldl run_read db reads) = get_lineage d db.
Proof.
  assert (foldl run_read db reads = db) as ->; [|done].
  induction reads as [|r reads IH]; simpl; [done|].
  assert (run_read db r = db) as ->; [|done].
  destruct r as [d|limit d|]; unfold run_read.
  - apply get_lineage_frame.
  - apply get_full_lineage_graph_frame.
  - apply list_all_datasets_frame.
Qed.

(** ** Appends (C3) *)

Lemma append_accepted c db :
  (sqlite_sequence db < max_rowid)%Z →
  append c db =
    (Ok (sqlite_sequence db + 1)%Z,
     {| lineage_records :=
          lineage_records db ++ [row_of_call (sqlite_sequence db + 1) c];
        sqlite_sequence := (sqlite_sequence db + 1)%Z |}).
Proof.
  intros Hseq. unfold append, record_transformation, execute_insert.
  by rewrite decide_True.
Qed.

(** C3, as the code has it.  An append checks nothing about its
    arguments: whenever a rowid is left, it returns the next rowid and
    adds exactly one row with the given fields, empty or not; existing
    rows stay. *)
Theorem append_does_not_validate (c : Call) (db : DB) :
  (sqlite_sequence db < max_rowid)%Z →
  ∃ rowid db',
    append c db = (Ok rowid, db') ∧
    rowid = (sqlite_sequence db + 1)%Z ∧
    lineage_records db' = lineage_records db ++ [row_of_call rowid c].
Proof.
  intros Hseq. eexists _, _. rewrite append_accepted by done. done.
Qed.

(** ** Lookups (C1, C2) *)

(** On any engine a lookup on a ledger returns the records of the rows
    whose [dataset_id] is the argument, each exactly once, with
    timestamps ascending. *)
Lemma lookup_sorted_by_timestamp (history : list Call) (d : string) :
  ∃ records,
    get_lineage d (ledger history) = (Ok records, ledger history) ∧
    records ≡ₚ record_of <$> rows_of (ledger history) d ∧
    Sorted (key_le rec_timestamp) records.
Proof.
  exists (records_of (ledger history) d).
  split; [apply get_lineage_ok, ledger_wf|]. unfold records_of. split.
  - by rewrite select_lineage_Permutation.
  - eapply Sorted_fmap; [|apply select_lineage_Sorted]. done.
Qed.

(** C1.  The query sorts by [timestamp] and names no second key; SQLite
    returns rows with equal keys in the order of its scan, by ascending
    rowid.  On such an engine a lookup on a ledger returns the records of
    the rows whose [dataset_id] is the argument, each exactly once,
    ordered by timestamp ascending and, among records with one
    timestamp, by id ascending: of any two records returned, the earlier
    has the smaller timestamp, or the same timestamp and the smaller
    id. *)
Theorem lookup_sorted_by_timestamp_then_id `{!StableSqlEngine}
    (history : list Call) (d : string) :
  ∃ records,
    get_lineage d (ledger history) = (Ok records, ledger history) ∧
    records ≡ₚ record_of <$> rows_of (ledger history) d ∧
    StronglySorted timestamp_then_id records.
Proof.
  exists (records_of (ledger history) d).
  split; [apply get_lineage_ok, ledger_wf|]. unfold records_of. split.
  { by rewrite select_lineage_Permutation. }
  apply (StronglySorted_fmap record_of
           (λ a b, strict String.le (r_timestamp a) (r_timestamp b) ∨
                   (r_timestamp a = r_timestamp b ∧ (r_id a < r_id b)%Z))).
  { by intros a b Hab. }
  apply sorted_by_key_then_id.
  - apply Sorted_StronglySorted; [apply _|apply select_lineage_Sorted].
  - intros k. unfold select_lineage. rewrite order_by_stable.
    apply ids_of_filter_sorted, ids_of_filter_sorted.
    apply (wf_ids _ (ledger_wf history)).
Qed.

(** C2, as the code has it.  While rowids are left an append is accepted,
    and a lookup of its dataset then has exactly one record with the
    returned id; that record carries the metadata that was passed if it
    is truthy, and [None] otherwise: non-empty documents come back
    verbatim, the empty map comes back as [None]. *)
Theorem metadata_round_trip (history : list Call) (c : Call) :
  (sqlite_sequence (ledger history) < max_rowid)%Z →
  ∃ rowid db' records r,
    append c (ledger history) = (Ok rowid, db') ∧
    get_lineage (call_dataset_id c) db' = (Ok records, db') ∧
    r ∈ records ∧ rec_id r = rowid ∧
    rec_metadata r =
      (if truthy (call_metadata c) then call_metadata c else JNull) ∧
    ∀ r', r' ∈ records → rec_id r' = rowid → r' = r.
Proof.
  intros Hseq.
  pose proof (ledger_wf history) as Hwf.
  pose proof (record_transformation_wf (call_dataset_id c) (call_operation c)
                (call_source_dataset_id c) (call_metadata c) (call_clock c)
                _ Hwf) as Hwf'.
  fold (append c) in Hwf'. rewrite append_accepted in Hwf' |- * by done.
  simpl in Hwf'.
  set (db := ledger history) in *.
  set (rowid := (sqlite_sequence db + 1)%Z) in *.
  set (db' := {| lineage_records := lineage_records db ++ [row_of_call rowid c];
                 sqlite_sequence := rowid |}) in *.
  exists rowid, db', (records_of db' (call_dataset_id c)),
    (record_of (row_of_call rowid c)).
  split; [done|]. split; [by apply get_lineage_ok|].
  split; [|split; [done|split]].
  - apply list_elem_of_fmap_2, elem_of_select_lineage. simpl.
    split; [|done]. apply elem_of_app. right. left.
  - apply metadata_of_row_of_call.
  - intros r' (row & -> & Hrow)%list_elem_of_fmap Hid.
    apply elem_of_select_lineage in Hrow as [Hrow _]. simpl in Hrow, Hid.
    apply elem_of_app in Hrow as [Hrow| ->%list_elem_of_singleton]; [|done].
    pose proof (wf_seq _ Hwf) as Hbound. rewrite Forall_forall in Hbound.
    specialize (Hbound _ Hrow). lia.
Qed.

(** ** The list of datasets (C7) *)

Lemma ledger_accepts_all history :
  (Z.of_nat (length history) ≤ max_rowid)%Z →
  sqlite_sequence (ledger history) = Z.of_nat (length history) ∧
  r_dataset_id <$> lineage_records (ledger history)
    = call_dataset_id <$> history.
Proof.
  induction history as [|c history IH] using rev_ind; intros Hlen.
  - done.
  - rewrite length_app in Hlen. simpl in Hlen.
    destruct IH as [Hseq Hids]; [lia|].
    rewrite ledger_snoc, append_accepted by lia. simpl.
    rewrite length_app, !fmap_app, Hids, Hseq. simpl. split; [lia|done].
Qed.

Lemma StronglySorted_strict (l : list string) :
  Sorted String.le l → NoDup l → StronglySorted (strict String.le) l.
Proof.
  intros Hs%Sorted_StronglySorted; [|apply _].
  induction Hs as [|x l _ IH Hx]; intros Hnd; [constructor|].
  apply NoDup_cons in Hnd as [Hnin Hnd]. constructor; [auto|].
  rewrite Forall_forall in Hx |- *. intros y Hy. split; [auto|].
  intros Hyx. assert (x = y) as -> by (apply (anti_symm String.le); auto).
  done.
Qed.

(** C7.  The list of datasets of a ledger is strictly ascending in the
    byte-wise lexicographic order, hence free of duplicates, and holds
    exactly the identifiers that were the target of an append; an
    identifier that was only ever a source is not in it. *)
Theorem list_all_datasets_sorted_distinct_targets (history : list Call) :
  (Z.of_nat (length history) ≤ max_rowid)%Z →
  ∃ ids,
    list_all_datasets (ledger history) = (Ok ids, ledger history) ∧
    StronglySorted (strict String.le) ids ∧
    NoDup ids ∧
    (∀ x, x ∈ ids ↔ x ∈ call_dataset_id <$> history) ∧
    (∀ x, Some x ∈ call_source_dataset_id <$> history →
          x ∉ call_dataset_id <$> history → x ∉ ids).
Proof.
  intros Hlen. exists (select_distinct_dataset_id (ledger history)).
  split; [done|].
  assert (NoDup (select_distinct_dataset_id (ledger history))) as Hnd.
  { unfold select_distinct_dataset_id.
    rewrite order_by_Permutation. apply NoDup_remove_dups. }
  assert (∀ x, x ∈ select_distinct_dataset_id (ledger history)
               ↔ x ∈ call_dataset_id <$> history) as Hiff.
  { intros x. unfold select_distinct_dataset_id.
    rewrite order_by_Permutation, elem_of_remove_dups.
    by destruct (ledger_accepts_all history Hlen) as [_ ->]. }
  split; [|split; [done|split; [done|]]].
  - apply StronglySorted_strict; [|done].
    apply (order_by_Sorted (λ s : string, s)).
  - intros x _ Hx. by rewrite Hiff.
Qed.

(** ** Graph reconstruction (C8, C5) *)

(** C8.  For a dataset without rows the reconstruction returns, without
    raising, the node of that dataset with no operations and no sources;
    one stack frame is all it takes. *)
Theorem graph_of_unrecorded_dataset (db : DB) (d : string) (k : nat) :
  rows_of db d = [] →
  get_full_lineage_graph (S k) d db = (Ok (Node d [] []), db).
Proof.
  intros Hrows.
  assert (select_lineage d db = []) as Hsel.
  { apply Permutation_nil_r. by rewrite select_lineage_Permutation, Hrows. }
  unfold get_full_lineage_graph. simpl.
  rewrite decide_False by set_solver.
  unfold get_lineage, execute_select_lineage, lift, mbind, M_bind.
  by rewrite Hsel.
Qed.

(** C5.  In the ledger of the single append of [A] with operation [op1]
    and source [A] itself, the graph of [A] is the node [A] with the one
    operation [op1] and one source, a node [A] without operations and
    without sources.  Two stack frames are all it takes. *)
Theorem graph_of_self_reference (A op1 : string) (md : Json) (clock : Clock)
    (k : nat) :
  A ≠ EmptyString →
  let c := {| call_dataset_id := A; call_operation := op1;
              call_source_dataset_id := Some A; call_metadata := md;
              call_clock := clock |} in
  get_full_lineage_graph (S (S k)) A (ledger [c]) =
    (Ok (Node A
           [ {| operation := op1;
                timestamp := utcnow_isoformat clock;
                metadata := if truthy md then md else JNull |} ]
           [ Node A [] [] ]),
     ledger [c]).
Proof.
  intros HA c.
  assert (records_of (ledger [c]) A = [record_of (row_of_call 1 c)]) as Hrecs.
  { assert (ledger [c] = {| lineage_records := [row_of_call 1 c];
                            sqlite_sequence := 1 |}) as Hledger.
    { unfold ledger. cbn [foldl]. by rewrite append_accepted. }
    unfold records_of. f_equal.
    apply Permutation_singleton_r. rewrite select_lineage_Permutation.
    unfold rows_of. rewrite Hledger. simpl.
    by rewrite filter_cons_True. }
  pose proof (ledger_wf [c]) as Hwf.
  remember (ledger [c]) as db eqn:Hdb. clear Hdb.
  unfold get_full_lineage_graph, mbind, M_bind.
  rewrite build_graph_S, decide_False, Hrecs by set_solver.
  apply truthy_str_true in HA. cbn -[build_graph]. rewrite HA.
  unfold mbind, M_bind.
  rewrite build_graph_S, decide_True by set_solver. simpl.
  unfold append_source, append_operation, operation_of. simpl.
  by rewrite (metadata_of_row_of_call 1 c).
Qed.

(** ** Termination (C6) *)

(** C6.  On every ledger, cyclic or not, the reconstruction completes
    when the stack is deep enough.  With [R] the set of datasets reachable
    from the root along source links there is a graph [g], no higher than
    [size R], that the reconstruction returns on every stack of more than
    [height g] frames; on a smaller stack it raises [RecursionError].  So
    the deepest call of [build_graph] is nested [height g] levels below
    the initial one, at most the number of reachable datasets. *)
Theorem build_graph_terminates (history : list Call) (root : string) :
  ∃ (R : gset string) (g : Graph),
    (∀ x, x ∈ R ↔ reachable (ledger history) root x) ∧
    height g ≤ size R ∧
    ∀ frames,
      get_full_lineage_graph frames root (ledger history) =
        (if decide (height g < frames) then Ok g else Raise RecursionError,
         ledger history).
Proof.
  destruct (get_full_lineage_graph_total (ledger history) root (ledger_wf history))
    as (R & g & v' & Hreach & Hheight & _ & _ & Hrun).
  by exists R, g.
Qed.

(** ** Shared ancestors (C4, C10) *)

(** C4.  The reconstruction has one outcome [g], returned on every stack
    deep enough for it.  Take the nodes of [g] in traversal order.  A node
    whose dataset occurs earlier in that order is the empty node of its
    dataset; a node whose dataset occurs there for the first time carries
    the full lookup of its dataset.  So a source shared by two datasets is
    expanded under the one the traversal reaches first, and is an empty
    node under the other. *)
Theorem first_visit_wins (history : list Call) (root : string) :
  ∃ g,
    (∀ frames,
       get_full_lineage_graph frames root (ledger history) =
         (if decide (height g < frames) then Ok g else Raise RecursionError,
          ledger history)) ∧
    ∀ l1 n l2,
      preorder g = l1 ++ n :: l2 →
      if decide (dataset_id n ∈ dataset_id <$> l1)
      then n = Node (dataset_id n) [] []
      else expanded (ledger history) n.
Proof.
  destruct (get_full_lineage_graph_total (ledger history) root (ledger_wf history))
    as (R & g & v' & _ & _ & _ & Hwalk & Hrun).
  exists g. split; [done|]. intros l1 n l2 Hsplit.
  rewrite Hsplit in Hwalk. case_decide as Hin.
  - apply walk_later_truncated in Hwalk as [Hops Hsrcs].
    + by rewrite <-(graph_eta n), Hops, Hsrcs.
    + by apply elem_of_union_r, elem_of_list_to_set.
  - eapply walk_first_expanded; [done|].
    by rewrite union_empty_l_L, elem_of_list_to_set.
Qed.

(** C10.  Among the nodes of the reconstructed graph, taken in traversal
    order, two nodes of one dataset never both have operations; every
    node that comes after a node of the same dataset has neither
    operations nor sources; and no node has more sources than
    operations. *)
Theorem one_expansion_per_dataset (history : list Call) (root : string) :
  ∃ g,
    (∀ frames,
       get_full_lineage_graph frames root (ledger history) =
         (if decide (height g < frames) then Ok g else Raise RecursionError,
          ledger history)) ∧
    (∀ i j ni nj,
       preorder g !! i = Some ni → preorder g !! j = Some nj →
       dataset_id ni = dataset_id nj →
       operations ni ≠ [] → operations nj ≠ [] → i = j) ∧
    (∀ i j ni nj,
       i < j → preorder g !! i = Some ni → preorder g !! j = Some nj →
       dataset_id ni = dataset_id nj →
       operations nj = [] ∧ sources nj = []) ∧
    (∀ n, n ∈ preorder g → length (sources n) ≤ length (operations n)).
Proof.
  destruct (get_full_lineage_graph_total (ledger history) root (ledger_wf history))
    as (R & g & v' & _ & _ & _ & Hwalk & Hrun).
  exists g. split; [done|].
  assert (∀ i j ni nj,
     i < j → preorder g !! i = Some ni → preorder g !! j = Some nj →
     dataset_id ni = dataset_id nj → truncated nj) as Hlater.
  { intros i j ni nj Hij Hi Hj Hid.
    rewrite <-(take_drop_middle _ _ _ Hj) in Hwalk.
    eapply walk_later_truncated; [done|].
    apply elem_of_union_r, elem_of_list_to_set. rewrite <-Hid.
    apply list_elem_of_fmap_2, (list_elem_of_lookup_2 _ i).
    by rewrite lookup_take_lt. }
  split; [|split; [done|]].
  - intros i j ni nj Hi Hj Hid Hni Hnj.
    destruct (Nat.lt_trichotomy i j) as [Hlt|[->|Hlt]]; [|done|].
    + by destruct (Hlater _ _ _ _ Hlt Hi Hj Hid).
    + by destruct (Hlater _ _ _ _ Hlt Hj Hi (eq_sym Hid)).
  - intros n Hn. apply walk_shape in Hwalk. rewrite Forall_forall in Hwalk.
    destruct (Hwalk _ Hn) as [[-> ->]|Hexp]; [done|].
    by eapply expanded_sources_le.
Qed.
End Claims.

(** * The statements at work *)

Section WithScan.
#[local] Existing Instance Instances.json.
#[local] Existing Instance Instances.scan.
Import Examples.

Example dumps_list :
  json_dumps (JList [JInt 1; JBool true; JNull; JList [JInt (-20)]])
  = "[1, true, null, [-20]]".
Proof. vm_compute. reflexivity. Qed.

Example loads_list :
  json_loads "[1, true, null, [-20]]"
  = Ok (JList [JInt 1; JBool true; JNull; JList [JInt (-20)]]).
Proof. vm_compute. reflexivity. Qed.

Example loads_rejects_trailing_text : json_loads "[1, 2] x" = Raise JSONDecodeError.
Proof. vm_compute. reflexivity. Qed.

(** The scenario of the design document: [clean] derived from [raw]. *)
Example graph_of_pipeline :
  get_full_lineage_graph 2 "clean" (ledger pipeline) =
    (Ok (Node "clean"
           [ {| operation := "dedupe";
                timestamp := utcnow_isoformat (clock "2");
                metadata := JDict [("removed", JInt 5)] |} ]
           [ Node "raw"
               [ {| operation := "load";
                    timestamp := utcnow_isoformat (clock "1");
                    metadata := JDict [("n", JInt 100)] |} ]
               [] ]),
     ledger pipeline).
Proof. vm_compute. reflexivity. Qed.

(** A cycle: the reconstruction stops at the second visit of [A]. *)
Example graph_of_cycle :
  get_full_lineage_graph 3 "A" (ledger cycle) =
    (Ok (Node "A" [op_at "1" "op1"]
           [Node "B" [op_at "2" "op2"] [Node "A" [] []]]),
     ledger cycle).
Proof. vm_compute. reflexivity. Qed.

(** ... and with one frame less it overflows the stack. *)
Example graph_of_cycle_overflow :
  get_full_lineage_graph 2 "A" (ledger cycle) = (Raise RecursionError, ledger cycle).
Proof. vm_compute. reflexivity. Qed.

Example graph_of_diamond :
  get_full_lineage_graph 4 "R" (ledger diamond) = (Ok diamond_graph, ledger diamond).
Proof. vm_compute. reflexivity. Qed.

(** Three records with one timestamp come back in the order of their
    ids. *)
Example tied_records_oldest_first :
  get_lineage "clean" (ledger tied) =
    (Ok [ tied_record 1 "dedupe"; tied_record 2 "normalise";
          tied_record 3 "cast" ],
     ledger tied).
Proof. vm_compute. reflexivity. Qed.

(** ** Where the design document goes beyond the code *)

(** Against C2: an append with the empty map as metadata is stored with
    a null metadata column, and the lookup returns [None] for it, not
    the empty map. *)
Lemma empty_map_comes_back_as_None :
  call_metadata empty_metadata = JDict [] ∧
  append empty_metadata (ledger []) =
    (Ok 1%Z, ledger [empty_metadata]) ∧
  get_lineage "raw" (ledger [empty_metadata]) =
    (Ok [ {| rec_id := 1; rec_dataset_id := "raw"; rec_operation := "load";
             rec_source_dataset_id := None; rec_metadata := JNull;
             rec_timestamp := utcnow_isoformat (clock "1");
             rec_created_at := current_timestamp (clock "1") |} ],
     ledger [empty_metadata]) ∧
  JNull ≠ JDict [].
Proof. repeat split; try (vm_compute; reflexivity). discriminate. Qed.

(** Against C3: an append with an empty dataset and an empty operation
    is accepted and its row is in the ledger afterwards. *)
Lemma empty_fields_are_appended :
  call_dataset_id empty_fields = EmptyString ∧
  call_operation empty_fields = EmptyString ∧
  append empty_fields (ledger []) = (Ok 1%Z, ledger [empty_fields]) ∧
  lineage_records (ledger []) = [] ∧
  lineage_records (ledger [empty_fields]) = [row_of_call 1 empty_fields].
Proof. repeat split; vm_compute; reflexivity. Qed.

(** ** Instances of the statements with hypotheses *)

Lemma lookup_sorted_by_timestamp_then_id_witness :
  @StableSqlEngine Instances.scan ∧
  ∃ records,
    get_lineage "clean" (ledger tied) = (Ok records, ledger tied) ∧
    records ≡ₚ record_of <$> rows_of (ledger tied) "clean" ∧
    StronglySorted timestamp_then_id records.
Proof.
  split; [exact Instances.scan_stable|].
  apply (@lookup_sorted_by_timestamp_then_id
           Instances.json Instances.scan Instances.scan_stable tied "clean").
Defined.

Lemma append_does_not_validate_witness :
  (sqlite_sequence init_db < max_rowid)%Z ∧
  ∃ rowid db',
    append empty_fields init_db = (Ok rowid, db') ∧
    rowid = (sqlite_sequence init_db + 1)%Z ∧
    lineage_records db' =
      lineage_records init_db ++ [row_of_call rowid empty_fields].
Proof.
  split; [reflexivity|].
  apply (append_does_not_validate empty_fields init_db). reflexivity.
Defined.

Lemma metadata_round_trip_witness :
  (sqlite_sequence (ledger [call "1" "raw" "load" None (JDict [("n", JInt 100)])])
   < max_rowid)%Z ∧
  ∃ rowid db' records r,
    append (call "2" "clean" "dedupe" (Some "raw") (JDict [("removed", JInt 5)]))
      (ledger [call "1" "raw" "load" None (JDict [("n", JInt 100)])])
    = (Ok rowid, db') ∧
    get_lineage "clean" db' = (Ok records, db') ∧
    r ∈ records ∧ rec_id r = rowid ∧
    rec_metadata r = JDict [("removed", JInt 5)] ∧
    ∀ r', r' ∈ records → rec_id r' = rowid → r' = r.
Proof.
  split; [vm_compute; reflexivity|].
  apply (metadata_round_trip
           [call "1" "raw" "load" None (JDict [("n", JInt 100)])]
           (call "2" "clean" "dedupe" (Some "raw") (JDict [("removed", JInt 5)]))).
  vm_compute; reflexivity.
Defined.

Lemma list_all_datasets_sorted_distinct_targets_witness :
  (Z.of_nat (length diamond) ≤ max_rowid)%Z ∧
  ∃ ids,
    list_all_datasets (ledger diamond) = (Ok ids, ledger diamond) ∧
    StronglySorted (strict String.le) ids ∧
    NoDup ids ∧
    (∀ x, x ∈ ids ↔ x ∈ call_dataset_id <$> diamond) ∧
    (∀ x, Some x ∈ call_source_dataset_id <$> diamond →
          x ∉ call_dataset_id <$> diamond → x ∉ ids).
Proof.
  split; [vm_compute; discriminate|].
  apply (list_all_datasets_sorted_distinct_targets diamond).
  vm_compute; discriminate.
Defined.

Example list_all_datasets_of_pipeline_twice :
  list_all_datasets (ledger (pipeline ++ pipeline)) =
    (Ok ["clean"; "raw"], ledger (pipeline ++ pipeline)).
Proof. vm_compute. reflexivity. Qed.

Lemma graph_of_unrecorded_dataset_witness :
  rows_of (ledger pipeline) "staging" = [] ∧
  get_full_lineage_graph 1 "staging" (ledger pipeline) =
    (Ok (Node "staging" [] []), ledger pipeline).
Proof.
  split; [vm_compute; reflexivity|].
  apply (graph_of_unrecorded_dataset (ledger pipeline) "staging" 0).
  vm_compute; reflexivity.
Defined.

Lemma graph_of_self_reference_witness :
  "A" ≠ EmptyString ∧
  get_full_lineage_graph 2 "A" (ledger [call "1" "A" "op1" (Some "A") JNull]) =
    (Ok (Node "A" [op_at "1" "op1"] [Node "A" [] []]),
     ledger [call "1" "A" "op1" (Some "A") JNull]).
Proof.
  split; [discriminate|].
  apply (graph_of_self_reference "A" "op1" JNull (clock "1") 0). discriminate.
Defined.

(** The diamond: [S] is expanded under [X], which the traversal reaches
    first, and is an empty node under [Y]. *)
Example preorder_of_diamond :
  preorder diamond_graph =
    [ diamond_graph;
      Node "X" [op_at "2" "op"] [Node "S" [op_at "1" "load"] []];
      Node "S" [op_at "1" "load"] [];
      Node "Y" [op_at "3" "op"] [Node "S" [] []];
      Node "S" [] [] ].
Proof. reflexivity. Qed.

(** In the diamond the first node of [S], under [X], carries the whole
    lookup of [S]; the second, under [Y], is the empty node. *)
Lemma first_visit_wins_witness :
  get_full_lineage_graph 4 "R" (ledger diamond) = (Ok diamond_graph, ledger diamond) ∧
  expanded (ledger diamond) (Node "S" [op_at "1" "load"] []) ∧
  Node "S" [] [] = Node (dataset_id (Node "S" [] [])) [] [].
Proof.
  destruct (first_visit_wins diamond "R") as (g & Hrun & Hfirst).
  assert (get_full_lineage_graph 4 "R" (ledger diamond)
          = (Ok diamond_graph, ledger diamond)) as Hdiamond
    by (vm_compute; reflexivity).
  specialize (Hrun 4). rewrite Hdiamond in Hrun.
  destruct (decide (height g < 4)); [|discriminate Hrun].
  injection Hrun as <-. split; [reflexivity|]. split.
  - apply (Hfirst [diamond_graph;
                   Node "X" [op_at "2" "op"] [Node "S" [op_at "1" "load"] []]]
                  (Node "S" [op_at "1" "load"] [])
                  [Node "Y" [op_at "3" "op"] [Node "S" [] []]; Node "S" [] []]).
    reflexivity.
  - apply (Hfirst [diamond_graph;
                   Node "X" [op_at "2" "op"] [Node "S" [op_at "1" "load"] []];
                   Node "S" [op_at "1" "load"] [];
                   Node "Y" [op_at "3" "op"] [Node "S" [] []]]
                  (Node "S" [] []) []).
    reflexivity.
Defined.

Lemma one_expansion_per_dataset_witness :
  get_full_lineage_graph 4 "R" (ledger diamond) = (Ok diamond_graph, ledger diamond) ∧
  (∀ i j ni nj,
     i < j → preorder diamond_graph !! i = Some ni →
     preorder diamond_graph !! j = Some nj →
     dataset_id ni = dataset_id nj →
     operations nj = [] ∧ sources nj = []) ∧
  (∀ n, n ∈ preorder diamond_graph →
        length (sources n) ≤ length (operations n)).
Proof.
  destruct (one_expansion_per_dataset diamond "R")
    as (g & Hrun & _ & Hlater & Hsources).
  assert (get_full_lineage_graph 4 "R" (ledger diamond)
          = (Ok diamond_graph, ledger diamond)) as Hdiamond
    by (vm_compute; reflexivity).
  specialize (Hrun 4). rewrite Hdiamond in Hrun.
  destruct (decide (height g < 4)); [|discriminate Hrun].
  injection Hrun as <-. split; [reflexivity|]. split; assumption.
Defined.
End WithScan.

(** * Further facts about the code *)

Section Store.
Context `{!JsonCodec, !SqlEngine}.

(** ** Rowids *)

Lemma append_rejected c db :
  ¬ (sqlite_sequence db < max_rowid)%Z →
  append c db = (Raise OperationalError, db).
Proof.
  intros Hseq. unfold append, record_transformation, execute_insert.
  by rewrite decide_False.
Qed.

(** X1.  The rows of a ledger carry the ids 1, 2, ..., n in the order they
    were inserted, and the [AUTOINCREMENT] counter stands at n. *)
Theorem ledger_ids_count_up (history : list Call) :
  r_id <$> lineage_records (ledger history) =
    Z.of_nat <$> seq 1 (length (lineage_records (ledger history))) ∧
  sqlite_sequence (ledger history) =
    Z.of_nat (length (lineage_records (ledger history))).
Proof.
  induction history as [|c history [IHids IHseq]] using rev_ind; [done|].
  rewrite ledger_snoc.
  destruct (decide (sqlite_sequence (ledger history) < max_rowid)%Z) as [Hseq|Hseq].
  - rewrite append_accepted by done. simpl.
    rewrite length_app, Nat.add_1_r, seq_S, !fmap_app, IHids, IHseq. simpl.
    split; [do 3 f_equal|]; lia.
  - by rewrite append_rejected.
Qed.

(** ** What an append changes in the lookups *)

Lemma select_lineage_append_other c db d :
  call_dataset_id c ≠ d →
  select_lineage d (append c db).2 = select_lineage d db.
Proof.
  intros Hd.
  destruct (decide (sqlite_sequence db < max_rowid)%Z) as [Hseq|Hseq].
  - rewrite append_accepted by done. unfold select_lineage. simpl.
    by rewrite filter_app, filter_cons_False, filter_nil, app_nil_r.
  - by rewrite append_rejected.
Qed.

(** X2.  An append to one dataset changes no lookup of another: the
    lookup of [d] answers after the append exactly what it answered
    before, on any database. *)
Theorem append_keeps_other_lookups (c : Call) (db : DB) (d : string) :
  call_dataset_id c ≠ d →
  (get_lineage d (append c db).2).1 = (get_lineage d db).1.
Proof.
  intros Hd.
  unfold get_lineage, execute_select_lineage, lift, mbind, M_bind.
  by rewrite select_lineage_append_other.
Qed.

(** X3.  On a ledger with a rowid left, the lookup of the dataset of an
    append answers afterwards the records it answered before and the new
    record, each once; nothing is lost and nothing else is added. *)
Theorem append_extends_own_lookup (history : list Call) (c : Call) :
  (sqlite_sequence (ledger history) < max_rowid)%Z →
  ∃ rowid before after,
    get_lineage (call_dataset_id c) (ledger history)
      = (Ok before, ledger history) ∧
    append c (ledger history) = (Ok rowid, ledger (history ++ [c])) ∧
    get_lineage (call_dataset_id c) (ledger (history ++ [c]))
      = (Ok after, ledger (history ++ [c])) ∧
    after ≡ₚ before ++ [record_of (row_of_call rowid c)].
Proof.
  intros Hseq.
  exists (sqlite_sequence (ledger history) + 1)%Z,
    (records_of (ledger history) (call_dataset_id c)),
    (records_of (ledger (history ++ [c])) (call_dataset_id c)).
  split; [apply get_lineage_ok, ledger_wf|].
  split; [by rewrite ledger_snoc, append_accepted|].
  split; [apply get_lineage_ok, ledger_wf|].
  unfold records_of. rewrite !select_lineage_Permutation. unfold rows_of.
  rewrite ledger_snoc, append_accepted by done. simpl.
  by rewrite filter_app, filter_cons_True, filter_nil, fmap_app.
Qed.

(** ** Rows whose metadata does not parse *)

Lemma fetch_records_is_ok rows acc :
  is_ok (fetch_records rows acc) ↔
  Forall (λ row, is_ok (load_metadata (r_metadata row))) rows.
Proof.
  revert acc. induction rows as [|row rows IH]; intros acc; simpl.
  - split; [constructor|done].
  - rewrite Forall_cons.
    destruct (load_metadata (r_metadata row)) as [md|e]; simpl.
    + rewrite IH. tauto.
    + tauto.
Qed.

(** X4.  On any database, a lookup raises exactly when a row of the
    dataset itself holds metadata text that [json.loads] rejects; what
    the rows of other datasets hold does not matter.  When it does not
    raise it answers the selected rows turned into records. *)
Theorem lookup_raises_iff_own_metadata_corrupt (db : DB) (d : string) :
  (is_ok (get_lineage d db).1 ↔
   Forall (λ row, is_ok (load_metadata (r_metadata row))) (rows_of db d)) ∧
  (is_ok (get_lineage d db).1 →
   get_lineage d db = (Ok (records_of db d), db)).
Proof.
  assert (Forall (λ row, is_ok (load_metadata (r_metadata row)))
            (select_lineage d db) ↔
          Forall (λ row, is_ok (load_metadata (r_metadata row)))
            (rows_of db d)) as Hrows.
  { rewrite !Forall_forall.
    split; intros Hall row Hrow; apply Hall;
      [rewrite select_lineage_Permutation|rewrite <-select_lineage_Permutation];
      done. }
  unfold get_lineage, execute_select_lineage, lift, mbind, M_bind. simpl.
  rewrite fetch_records_is_ok. split; [done|]. intros Hok.
  by rewrite fetch_records_ok.
Qed.

(** ** The list of datasets and the lookups *)

Lemma records_of_nil db d : records_of db d = [] ↔ rows_of db d = [].
Proof.
  unfold records_of. split.
  - intros Hnil%fmap_nil_inv.
    apply Permutation_nil_r. by rewrite <-select_lineage_Permutation, Hnil.
  - intros Hnil.
    assert (select_lineage d db = []) as ->; [|done].
    apply Permutation_nil_r. by rewrite select_lineage_Permutation, Hnil.
Qed.

Lemma rows_of_nil db d :
  rows_of db d = [] ↔ d ∉ r_dataset_id <$> lineage_records db.
Proof.
  unfold rows_of. split.
  - intros Hnil (row & -> & Hrow)%list_elem_of_fmap.
    assert (row ∈ filter (λ row', r_dataset_id row' = r_dataset_id row)
                    (lineage_records db)) as Hin
      by by apply list_elem_of_filter.
    rewrite Hnil in Hin. by apply elem_of_nil in Hin.
  - intros Hnin.
    destruct (filter _ _) as [|row rows] eqn:Hrows; [done|].
    assert (row ∈ filter (λ row', r_dataset_id row' = d) (lineage_records db))
      as [<- Hrow]%list_elem_of_filter by (rewrite Hrows; left).
    destruct Hnin. by apply list_elem_of_fmap_2.
Qed.

(** X5.  On a ledger, a dataset is in the list of datasets exactly when
    its lookup is not empty. *)
Theorem listed_iff_lookup_nonempty (history : list Call) (d : string) :
  ∃ ids records,
    list_all_datasets (ledger history) = (Ok ids, ledger history) ∧
    get_lineage d (ledger history) = (Ok records, ledger history) ∧
    (d ∈ ids ↔ records ≠ []).
Proof.
  exists (select_distinct_dataset_id (ledger history)),
    (records_of (ledger history) d).
  split; [done|]. split; [apply get_lineage_ok, ledger_wf|].
  unfold select_distinct_dataset_id.
  rewrite order_by_Permutation, elem_of_remove_dups, records_of_nil, rows_of_nil.
  split; [tauto|]. intros Hnn.
  by destruct (decide (d ∈ r_dataset_id <$> lineage_records (ledger history))).
Qed.

(** ** Lookups when the clock advances *)

Lemma strictly_sorted_key_inj {A} (key : A → string) (l : list A) x y :
  StronglySorted (λ a b, strict String.le (key a) (key b)) l →
  x ∈ l → y ∈ l → key x = key y → x = y.
Proof.
  induction 1 as [|a l _ IH Ha]; intros Hx Hy Hkey.
  { by apply elem_of_nil in Hx. }
  rewrite Forall_forall in Ha.
  apply elem_of_cons in Hx as [->|Hx]; apply elem_of_cons in Hy as [->|Hy];
    [done| | |by apply IH].
  - destruct (Ha _ Hy) as [_ []]. by rewrite Hkey.
  - destruct (Ha _ Hx) as [_ []]. by rewrite Hkey.
Qed.

(** X6.  When the timestamps of the rows of a dataset strictly ascend in
    insertion order, its lookup answers the records in insertion order,
    ids ascending, whatever the engine does with equal keys. *)
Theorem lookup_in_insertion_order (history : list Call) (d : string) :
  StronglySorted (λ a b, strict String.le (r_timestamp a) (r_timestamp b))
    (rows_of (ledger history) d) →
  get_lineage d (ledger history) =
    (Ok (record_of <$> rows_of (ledger history) d), ledger history) ∧
  StronglySorted Z.lt (rec_id <$> (record_of <$> rows_of (ledger history) d)).
Proof.
  intros Hstrict. split.
  - rewrite get_lineage_ok by apply ledger_wf. unfold records_of.
    do 3 f_equal.
    apply (Sorted_unique_strong (key_le r_timestamp)).
    + intros x1 x2 Hx1 Hx2 H12 H21.
      apply (strictly_sorted_key_inj r_timestamp (rows_of (ledger history) d));
        [done|by rewrite <-select_lineage_Permutation|done|].
      by apply (anti_symm String.le).
    + apply select_lineage_Sorted.
    + apply StronglySorted_Sorted in Hstrict.
      rewrite <-(list_fmap_id (rows_of (ledger history) d)).
      eapply (Sorted_fmap id); [|done]. by intros a b [? _].
    + apply select_lineage_Permutation.
  - rewrite <-list_fmap_compose.
    apply (ids_of_filter_sorted _ _ (wf_ids _ (ledger_wf history))).
Qed.
End Store.

(** ** The whole graph *)

Section WholeGraph.
Context `{!JsonCodec, !SqlEngine}.

Lemma filter_split {A} (P Q R : A → Prop)
    `{!∀ x, Decision (P x), !∀ x, Decision (Q x), !∀ x, Decision (R x)} l :
  (∀ x, P x ↔ Q x ∨ R x) → (∀ x, Q x → R x → False) →
  filter P l ≡ₚ filter Q l ++ filter R l.
Proof.
  intros Hiff Hdisjoint. induction l as [|x l IH]; [done|].
  rewrite !filter_cons.
  destruct (decide (Q x)) as [HQ|HQ], (decide (R x)) as [HR|HR].
  - by destruct (Hdisjoint x).
  - rewrite decide_True by (apply Hiff; auto). simpl. by rewrite IH.
  - rewrite decide_True by (apply Hiff; auto).
    by rewrite IH, Permutation_middle.
  - rewrite decide_False by (rewrite Hiff; tauto). done.
Qed.

Lemma rows_in_empty db (R : gset string) :
  (∀ x, x ∉ R) → rows_in db R = [].
Proof.
  intros Hempty. unfold rows_in.
  induction (lineage_records db) as [|row rows IH]; [done|].
  by rewrite filter_cons_False.
Qed.

(** What the nodes of a walk carry, taken together, is what the rows of
    the datasets it marked provide. *)
Lemma walk_payload {B} (P : Graph → list B) (h : LineageRecord → option B) db :
  (∀ n, truncated n → P n = []) →
  (∀ n, expanded db n → P n = omap h (records_of db (dataset_id n))) →
  ∀ v nodes v', walk db v nodes v' →
    nodes ≫= P ≡ₚ omap h (record_of <$> rows_in db (v' ∖ v)).
Proof.
  intros Htruncated Hexpanded v nodes v'.
  induction 1 as [v|v n nodes v' Hin Hn _ IH|v n nodes v' Hnin Hn Hwalk IH].
  - rewrite rows_in_empty by set_solver. done.
  - rewrite bind_cons, Htruncated by done. done.
  - rewrite bind_cons, Hexpanded, IH by done.
    unfold records_of. rewrite select_lineage_Permutation.
    rewrite <-omap_app, <-fmap_app.
    apply omap_Permutation, fmap_Permutation. symmetry.
    apply filter_split.
    + pose proof (walk_visited _ _ _ _ Hwalk) as Hv'.
      clear -Hv' Hnin. intros row. rewrite Hv'.
      rewrite !elem_of_difference, !elem_of_union, elem_of_singleton.
      destruct (decide (r_dataset_id row = dataset_id n)) as [->|]; tauto.
    + clear. intros row ->.
      rewrite elem_of_difference, elem_of_union, elem_of_singleton. tauto.
Qed.

Lemma length_preorder g :
  length (preorder g) = S (length (preorder g ≫= sources)).
Proof.
  induction g as [id ops srcs IH] using Graph_nested_ind.
  change (preorder (Node id ops srcs))
    with (Node id ops srcs :: (srcs ≫= preorder)).
  rewrite bind_cons, length_app. cbn [length sources]. f_equal.
  induction IH as [|s srcs Hs _ IHsrcs]; [done|].
  rewrite bind_cons, bind_app, !length_app, Hs, IHsrcs. cbn [length]. lia.
Qed.

Lemma length_bind_source_ids (nodes : list Graph) :
  length (nodes ≫= λ n, dataset_id <$> sources n) = length (nodes ≫= sources).
Proof.
  induction nodes as [|n nodes IH]; [done|].
  by rewrite !bind_cons, !length_app, length_fmap, IH.
Qed.

(** The graph of [root] with the set of datasets it visited. *)
Lemma graph_with_reachable_set db root :
  db_wf db →
  ∃ (R : gset string) (g : Graph),
    (∀ x, x ∈ R ↔ reachable db root x) ∧
    walk db ∅ (preorder g) R ∧
    ∀ frames,
      get_full_lineage_graph frames root db =
        (if decide (height g < frames) then Ok g else Raise RecursionError, db).
Proof.
  intros Hwf.
  destruct (get_full_lineage_graph_total db root Hwf)
    as (_ & g & v' & _ & _ & Hid & Hwalk & Hrun).
  exists v', g. split; [|done].
  intros x. rewrite <-Hid. by apply walk_reachable.
Qed.

(** X7.  The datasets that have a node in the reconstructed graph are
    exactly the datasets reachable from the root along source links: no
    ancestor is left out, nothing else is put in. *)
Theorem graph_covers_reachable_datasets (history : list Call) (root : string) :
  ∃ g,
    (∀ frames,
       get_full_lineage_graph frames root (ledger history) =
         (if decide (height g < frames) then Ok g else Raise RecursionError,
          ledger history)) ∧
    ∀ x, x ∈ dataset_id <$> preorder g ↔ reachable (ledger history) root x.
Proof.
  destruct (graph_with_reachable_set (ledger history) root (ledger_wf history))
    as (R & g & Hreach & Hwalk & Hrun).
  exists g. split; [done|]. intros x. rewrite <-Hreach.
  apply walk_visited in Hwalk as ->.
  by rewrite union_empty_l_L, elem_of_list_to_set.
Qed.

(** X8.  The operations of all nodes of the reconstructed graph, taken
    together, are the operations of the records of the reachable
    datasets, each record counted once: the truncation of repeated
    datasets loses no record and repeats none. *)
Theorem graph_holds_each_record_once (history : list Call) (root : string) :
  ∃ (R : gset string) g,
    (∀ x, x ∈ R ↔ reachable (ledger history) root x) ∧
    (∀ frames,
       get_full_lineage_graph frames root (ledger history) =
         (if decide (height g < frames) then Ok g else Raise RecursionError,
          ledger history)) ∧
    preorder g ≫= operations ≡ₚ
      operation_of <$> (record_of <$> rows_in (ledger history) R).
Proof.
  destruct (graph_with_reachable_set (ledger history) root (ledger_wf history))
    as (R & g & Hreach & Hwalk & Hrun).
  exists R, g. split; [done|]. split; [done|].
  rewrite (list_fmap_alt operation_of).
  etrans;
    [apply (walk_payload operations (λ r, Some (operation_of r))
              (ledger history)); [| |exact Hwalk]|].
  - by intros n [-> _].
  - intros n [-> _]. apply list_fmap_alt.
  - by rewrite difference_empty_L.
Qed.

(** X9.  The reconstructed graph has one node for the root and one for
    each record of a reachable dataset that names a non-empty source; so
    it never has more nodes than the ledger has rows, plus one. *)
Theorem graph_node_count (history : list Call) (root : string) :
  ∃ (R : gset string) g,
    (∀ x, x ∈ R ↔ reachable (ledger history) root x) ∧
    (∀ frames,
       get_full_lineage_graph frames root (ledger history) =
         (if decide (height g < frames) then Ok g else Raise RecursionError,
          ledger history)) ∧
    length (preorder g) =
      S (length (omap followed_source
                   (record_of <$> rows_in (ledger history) R))) ∧
    length (preorder g) ≤ S (length (lineage_records (ledger history))).
Proof.
  destruct (graph_with_reachable_set (ledger history) root (ledger_wf history))
    as (R & g & Hreach & Hwalk & Hrun).
  exists R, g. split; [done|]. split; [done|].
  assert (length (preorder g) =
          S (length (omap followed_source
                       (record_of <$> rows_in (ledger history) R)))) as Hcount.
  { rewrite length_preorder, <-length_bind_source_ids. f_equal.
    rewrite <-(difference_empty_L R).
    apply Permutation_length.
    apply (walk_payload (λ n, dataset_id <$> sources n) followed_source
             (ledger history)); [| |exact Hwalk].
    - by intros n [_ ->].
    - by intros n [_ ->]. }
  split; [done|]. rewrite Hcount. apply le_n_S.
  etrans; [apply length_followed_sources|].
  rewrite length_fmap. apply length_filter.
Qed.
End WholeGraph.

(** ** The handlers of the service

    The statements of this section are about the handler functions of
    [main.py], given their arguments; which request paths the framework
    passes on to them is not part of them. *)

Section Service.
Context `{!JsonCodec, !SqlEngine}.
Variable str : exn → string.

Lemma post_accepted record clock db :
  (sqlite_sequence db < max_rowid)%Z →
  Main.record_transformation str record clock db =
    (Main.Respond
       {| Main.recorded_status := "success";
          Main.recorded_record_id := (sqlite_sequence db + 1)%Z;
          Main.recorded_dataset_id := Main.tr_dataset_id record;
          Main.recorded_message := "Transformation recorded successfully" |},
     (append (call_of_request record clock) db).2).
Proof.
  intros Hseq. unfold Main.record_transformation.
  change (record_transformation _ _ _ _ clock db)
    with (append (call_of_request record clock) db).
  by rewrite append_accepted.
Qed.

(** X10.  The handler [record_transformation], given a record on a
    ledger with a rowid left, returns success with the new id, and the
    handler [get_lineage], given the [dataset_id] of that record right
    after it, does not raise the 404: it returns the records of the
    dataset, among them one with the new id that carries the operation,
    the source and the metadata of the record, an empty map being [None]
    like no metadata at all. *)
Theorem post_then_get (history : list Call)
    (record : Main.TransformationRecord) (clock : Clock) :
  (sqlite_sequence (ledger history) < max_rowid)%Z →
  ∃ rowid db' records r,
    Main.record_transformation str record clock (ledger history) =
      (Main.Respond
         {| Main.recorded_status := "success";
            Main.recorded_record_id := rowid;
            Main.recorded_dataset_id := Main.tr_dataset_id record;
            Main.recorded_message := "Transformation recorded successfully" |},
       db') ∧
    Main.get_lineage str (Main.tr_dataset_id record) db' =
      (Main.Respond
         {| Main.lineage_dataset_id := Main.tr_dataset_id record;
            Main.lineage_records_of := records |},
       db') ∧
    r ∈ records ∧ rec_id r = rowid ∧
    rec_operation r = Main.tr_operation record ∧
    rec_source_dataset_id r = Main.tr_source_dataset_id record ∧
    rec_metadata r =
      match Main.tr_metadata record with
      | Some (item :: d) => JDict (item :: d)
      | _ => JNull
      end.
Proof.
  intros Hseq. set (c := call_of_request record clock).
  set (rowid := (sqlite_sequence (ledger history) + 1)%Z).
  assert ((append c (ledger history)).2 = ledger (history ++ [c])) as Hdb
    by by rewrite ledger_snoc.
  assert (record_of (row_of_call rowid c)
          ∈ records_of (ledger (history ++ [c])) (Main.tr_dataset_id record))
    as Hin.
  { apply list_elem_of_fmap_2, elem_of_select_lineage.
    rewrite ledger_snoc, append_accepted by done. simpl.
    split; [|done]. apply elem_of_app. right. left. }
  exists rowid, (ledger (history ++ [c])),
    (records_of (ledger (history ++ [c])) (Main.tr_dataset_id record)),
    (record_of (row_of_call rowid c)).
  split; [rewrite post_accepted by done; fold c; by rewrite Hdb|]. split.
  - unfold Main.get_lineage. rewrite get_lineage_ok by apply ledger_wf.
    destruct (records_of _ _); [by apply elem_of_nil in Hin|done].
  - split; [done|]. repeat split.
    simpl. rewrite metadata_of_row_of_call. simpl.
    by destruct (Main.tr_metadata record) as [[|item d]|].
Qed.

(** X11.  On a ledger, the handler [get_lineage], given [d], raises the
    404, with [d] in the detail, exactly when no row has [d] as its
    dataset; otherwise it returns the lookup of [d].  It never raises the
    500 and leaves the ledger as it is. *)
Theorem get_lineage_answers (history : list Call) (d : string) :
  Main.get_lineage str d (ledger history) =
    (match rows_of (ledger history) d with
     | [] =>
         Main.HTTPException 404
           ("No lineage records found for dataset_id: " +:+ d)
     | _ :: _ =>
         Main.Respond
           {| Main.lineage_dataset_id := d;
              Main.lineage_records_of := records_of (ledger history) d |}
     end,
     ledger history).
Proof.
  unfold Main.get_lineage. rewrite get_lineage_ok by apply ledger_wf.
  pose proof (records_of_nil (ledger history) d) as Hnil.
  destruct (records_of (ledger history) d) as [|r records];
    destruct (rows_of (ledger history) d) as [|row rows]; try done.
  - by destruct Hnil as [Hnil _]; specialize (Hnil eq_refl).
  - by destruct Hnil as [_ Hnil]; specialize (Hnil eq_refl).
Qed.

(** X12.  On a ledger, the handler [get_lineage_graph], given [d], raises
    the 404 exactly when no row has [d] as its dataset.  Otherwise it
    returns the graph of [d] whenever the stack is deep enough for the
    reconstruction, more frames than the graph is high being enough; and
    whatever the stack, it either returns that graph or raises the 500
    with the message of the [RecursionError].  The root of the graph is
    [d] and has operations. *)
Theorem get_lineage_graph_answers (history : list Call) (d : string) :
  ∃ g,
    dataset_id g = d ∧
    (rows_of (ledger history) d ≠ [] → operations g ≠ []) ∧
    ∀ frames,
      match rows_of (ledger history) d with
      | [] =>
          Main.get_lineage_graph str frames d (ledger history) =
            (Main.HTTPException 404
               ("No lineage records found for dataset_id: " +:+ d),
             ledger history)
      | _ :: _ =>
          (height g < frames →
           Main.get_lineage_graph str frames d (ledger history) =
             (Main.Respond {| Main.graph_dataset_id := d;
                              Main.graph_of := g |},
              ledger history)) ∧
          (Main.get_lineage_graph str frames d (ledger history) =
             (Main.Respond {| Main.graph_dataset_id := d;
                              Main.graph_of := g |},
              ledger history) ∨
           Main.get_lineage_graph str frames d (ledger history) =
             (Main.HTTPException 500
                ("Error retrieving lineage graph: " +:+ str RecursionError),
              ledger history))
      end.
Proof.
  destruct (get_full_lineage_graph_total (ledger history) d (ledger_wf history))
    as (R & g & v' & _ & _ & Hid & Hwalk & Hrun).
  exists g. split; [done|]. split.
  - intros Hrows Hops.
    rewrite preorder_unfold in Hwalk.
    apply (walk_first_expanded _ _ []) in Hwalk as [Hexp _]; [|set_solver].
    rewrite Hops, Hid in Hexp. symmetry in Hexp.
    apply fmap_nil_inv in Hexp. by apply records_of_nil in Hexp.
  - intros frames. unfold Main.get_lineage_graph.
    rewrite get_lineage_ok by apply ledger_wf.
    pose proof (records_of_nil (ledger history) d) as Hnil.
    destruct (records_of (ledger history) d) as [|r records];
      destruct (rows_of (ledger history) d) as [|row rows]; try done.
    + by destruct Hnil as [Hnil _]; specialize (Hnil eq_refl).
    + by destruct Hnil as [_ Hnil]; specialize (Hnil eq_refl).
    + rewrite Hrun. case_decide; [by split; [|left]|].
      split; [done|by right].
Qed.

(** X13.  On a ledger, the handler [list_datasets] returns exactly the
    datasets for which the handler [get_lineage] returns a body rather
    than raising an error. *)
Theorem listed_iff_get_answers (history : list Call) :
  ∃ ids,
    Main.list_datasets str (ledger history) = (Main.Respond ids, ledger history) ∧
    ∀ d, d ∈ ids ↔
         ∃ body, Main.get_lineage str d (ledger history)
                 = (Main.Respond body, ledger history).
Proof.
  exists (select_distinct_dataset_id (ledger history)). split; [done|].
  intros d. unfold Main.get_lineage, select_distinct_dataset_id.
  rewrite get_lineage_ok by apply ledger_wf.
  rewrite order_by_Permutation, elem_of_remove_dups.
  pose proof (records_of_nil (ledger history) d) as Hnil.
  rewrite rows_of_nil in Hnil.
  destruct (records_of (ledger history) d) as [|r records].
  - split; [|by intros [body ?]].
    intros Hin. by destruct Hnil as [Hnil _]; specialize (Hnil eq_refl).
  - split; [by eexists|]. intros _.
    destruct (decide (d ∈ r_dataset_id <$> lineage_records (ledger history)))
      as [|Hnin]; [done|].
    by destruct Hnil as [_ Hnil]; specialize (Hnil Hnin).
Qed.
End Service.

(** ** Linear pipelines *)

Section Pipeline.
Context `{!JsonCodec, !SqlEngine}.

Lemma links_next previous upstream c' c downstream :
  links previous (upstream ++ c' :: c :: downstream) →
  call_source_dataset_id c = Some (call_dataset_id c').
Proof.
  revert previous. induction upstream as [|a upstream IH]; intros previous.
  - by intros (_ & Hc & _).
  - intros [_ Hrest]. by eapply IH.
Qed.

Lemma rows_of_ledger_snoc history c d :
  (Z.of_nat (length (history ++ [c])) ≤ max_rowid)%Z →
  ∃ rowid,
    rows_of (ledger (history ++ [c])) d =
      rows_of (ledger history) d ++
      (if decide (call_dataset_id c = d) then [row_of_call rowid c] else []).
Proof.
  rewrite length_app. simpl. intros Hlen.
  destruct (ledger_accepts_all history) as [Hseq _]; [lia|].
  exists (sqlite_sequence (ledger history) + 1)%Z.
  unfold rows_of. rewrite ledger_snoc, append_accepted by lia. simpl.
  rewrite filter_app, filter_cons, filter_nil. simpl. by case_decide.
Qed.

(** In a ledger whose datasets were each written once, the dataset of a
    call has the one row of that call. *)
Lemma rows_of_written_once history c :
  (Z.of_nat (length history) ≤ max_rowid)%Z →
  NoDup (call_dataset_id <$> history) → c ∈ history →
  ∃ rowid, rows_of (ledger history) (call_dataset_id c) = [row_of_call rowid c].
Proof.
  induction history as [|c' history IH] using rev_ind; intros Hlen Hnd Hc.
  { by apply elem_of_nil in Hc. }
  destruct (rows_of_ledger_snoc history c' (call_dataset_id c) Hlen)
    as [rowid ->].
  rewrite length_app in Hlen. simpl in Hlen.
  rewrite fmap_app in Hnd. apply NoDup_app in Hnd as (Hnd & Hfresh & _).
  apply elem_of_app in Hc as [Hc| ->%list_elem_of_singleton].
  - destruct IH as [rowid' ->]; [lia|done|done|].
    rewrite decide_False; [by exists rowid'|].
    intros Heq. apply (Hfresh (call_dataset_id c)).
    + by apply list_elem_of_fmap_2.
    + rewrite <-Heq. left.
  - rewrite decide_True by done. exists rowid.
    assert (rows_of (ledger history) (call_dataset_id c') = []) as ->; [|done].
    apply rows_of_nil.
    destruct (ledger_accepts_all history) as [_ ->]; [lia|].
    intros Hin. apply (Hfresh _ Hin). left.
Qed.

Lemma operation_of_row_of_call rowid c :
  operation_of (record_of (row_of_call rowid c)) = operation_of_call c.
Proof.
  unfold operation_of, operation_of_call. simpl.
  by rewrite metadata_of_row_of_call.
Qed.

Lemma path_graph_snoc history c :
  path_graph (history ++ [c]) =
    [Node (call_dataset_id c) [operation_of_call c] (path_graph history)].
Proof. unfold path_graph. by rewrite foldl_app. Qed.

Section Within.
Variable history : list Call.
Hypothesis shaped : pipeline_shaped history.
Hypothesis fits : (Z.of_nat (length history) ≤ max_rowid)%Z.

Lemma records_of_pipeline c :
  c ∈ history →
  ∃ rowid,
    records_of (ledger history) (call_dataset_id c) =
      [record_of (row_of_call rowid c)].
Proof.
  intros Hc. destruct shaped as (_ & Hnd & _).
  destruct (rows_of_written_once history c fits Hnd Hc) as [rowid Hrows].
  exists rowid. unfold records_of.
  assert (select_lineage (call_dataset_id c) (ledger history)
          = [row_of_call rowid c]) as ->; [|done].
  apply Permutation_singleton_r. by rewrite select_lineage_Permutation, Hrows.
Qed.

(** The call for the dataset of [c], anywhere in the pipeline, returns
    the path of [c] and of what is upstream of it. *)
Lemma build_graph_pipeline upstream : ∀ c downstream v k,
  history = upstream ++ c :: downstream →
  (∀ x, x ∈ call_dataset_id <$> upstream ++ [c] → x ∉ v) →
  ∃ g,
    path_graph (upstream ++ [c]) = [g] ∧
    build_graph (S (length upstream) + k) (call_dataset_id c)
      (Node (call_dataset_id c) [] []) v (ledger history) =
      (Ok (g, list_to_set (call_dataset_id <$> upstream ++ [c]) ∪ v),
       ledger history).
Proof.
  pose proof (ledger_wf history) as Hwf.
  destruct shaped as (Hlinks & Hnd & Hnonempty).
  induction upstream as [|c' upstream IH] using rev_ind;
    intros c downstream v k Hhistory Hfresh.
  - destruct (records_of_pipeline c) as [rowid Hrecords].
    { rewrite Hhistory. left. }
    rewrite Hhistory in Hlinks. destruct Hlinks as [Hsource _].
    assert (call_dataset_id c ∉ v) as Hcv by (apply Hfresh; left).
    eexists. split; [done|]. simpl length.
    rewrite build_graph_S, decide_False, Hrecords by done.
    cbn -[build_graph]. rewrite Hsource.
    unfold append_operation. simpl. rewrite operation_of_row_of_call.
    unfold mret, M_ret, path_graph. simpl.
    by rewrite union_empty_r_L.
  - rewrite <-app_assoc in Hhistory. simpl in Hhistory.
    destruct (records_of_pipeline c) as [rowid Hrecords].
    { rewrite Hhistory. apply elem_of_app. right. right. left. }
    assert (call_source_dataset_id c = Some (call_dataset_id c')) as Hsource.
    { rewrite Hhistory in Hlinks. by eapply links_next. }
    assert (truthy_str (call_dataset_id c') = true) as Htruthy.
    { apply truthy_str_true. rewrite Forall_forall in Hnonempty.
      apply Hnonempty. rewrite Hhistory. apply elem_of_app. right. left. }
    assert (call_dataset_id c ∉ call_dataset_id <$> upstream ++ [c']) as Hnew.
    { rewrite Hhistory in Hnd.
      replace (upstream ++ c' :: c :: downstream)
        with ((upstream ++ [c']) ++ c :: downstream) in Hnd
        by by rewrite <-app_assoc.
      rewrite fmap_app in Hnd. apply NoDup_app in Hnd as (_ & Hdisjoint & _).
      intros Hin. apply (Hdisjoint _ Hin). left. }
    destruct (IH c' (c :: downstream) ({[call_dataset_id c]} ∪ v) k Hhistory)
      as (g' & Hpath' & Hrun').
    { intros x Hx. apply not_elem_of_union. split.
      - intros ->%elem_of_singleton. done.
      - apply Hfresh. rewrite fmap_app. apply elem_of_app. by left. }
    exists (Node (call_dataset_id c) [operation_of_call c] [g']).
    split; [by rewrite path_graph_snoc, Hpath'|].
    rewrite length_app. simpl length.
    replace (S (length upstream + 1) + k) with (S (S (length upstream) + k))
      by lia.
    assert (call_dataset_id c ∉ v) as Hcv.
    { apply Hfresh. rewrite fmap_app. apply elem_of_app. right. left. }
    rewrite build_graph_S, decide_False, Hrecords by done.
    cbn -[build_graph]. rewrite Hsource, Htruthy.
    change (S (length upstream) + k) with (S (length upstream + k)) in Hrun'.
    unfold mbind, M_bind. rewrite Hrun'. simpl.
    unfold append_source, append_operation. simpl.
    rewrite operation_of_row_of_call.
    unfold mret, M_ret. do 3 f_equal.
    rewrite (fmap_app _ (upstream ++ [c']) [c]), list_to_set_app_L. simpl.
    set_solver.
Qed.
End Within.

(** X14.  In a linear pipeline, where every step names the step before it
    as its source and every dataset is written once, the graph of a step
    is a path: the node of the step, with its one operation, over the
    node of its source, and so on up to the first step.  The steps after
    it do not show in it, and a stack of as many frames as the path has
    nodes is enough. *)
Theorem pipeline_reconstructs_to_path (upstream downstream : list Call)
    (c : Call) (k : nat) :
  pipeline_shaped (upstream ++ c :: downstream) →
  (Z.of_nat (length (upstream ++ c :: downstream)) ≤ max_rowid)%Z →
  ∃ g,
    path_graph (upstream ++ [c]) = [g] ∧
    get_full_lineage_graph (S (length upstream) + k) (call_dataset_id c)
      (ledger (upstream ++ c :: downstream)) =
      (Ok g, ledger (upstream ++ c :: downstream)).
Proof.
  intros Hshaped Hfits.
  destruct (build_graph_pipeline _ Hshaped Hfits upstream c downstream ∅ k)
    as (g & Hpath & Hrun); [done|by intros x _ ?%elem_of_empty|].
  exists g. split; [done|].
  unfold get_full_lineage_graph, mbind, M_bind. by rewrite Hrun.
Qed.
End Pipeline.

(** ** What later appends leave alone *)

Section Kept.
Context `{!JsonCodec, !SqlEngine}.

Lemma ledger_rows_prefix history extra :
  ∃ new,
    lineage_records (ledger (history ++ extra)) =
      lineage_records (ledger history) ++ new.
Proof.
  induction extra as [|c extra [new IH]] using rev_ind.
  { exists []. by rewrite !app_nil_r. }
  rewrite app_assoc, ledger_snoc.
  destruct (decide (sqlite_sequence (ledger (history ++ extra)) < max_rowid)%Z).
  - rewrite append_accepted by done. simpl. rewrite IH, <-app_assoc. by eexists.
  - rewrite append_rejected by done. by exists new.
Qed.

(** X15.  Records are never changed or removed: whatever is appended
    afterwards, the lookup of a dataset answers the records it answered
    before, each as it was, and possibly more. *)
Theorem later_appends_keep_records (history extra : list Call) (d : string) :
  ∃ before after added,
    get_lineage d (ledger history) = (Ok before, ledger history) ∧
    get_lineage d (ledger (history ++ extra))
      = (Ok after, ledger (history ++ extra)) ∧
    after ≡ₚ before ++ added.
Proof.
  destruct (ledger_rows_prefix history extra) as [new Hnew].
  exists (records_of (ledger history) d),
    (records_of (ledger (history ++ extra)) d),
    (record_of <$> filter (λ row, r_dataset_id row = d) new).
  split; [apply get_lineage_ok, ledger_wf|].
  split; [apply get_lineage_ok, ledger_wf|].
  unfold records_of. rewrite !select_lineage_Permutation. unfold rows_of.
  by rewrite Hnew, filter_app, fmap_app.
Qed.

(** X16.  A record whose source is the empty string has no source as far
    as the reconstruction goes: every node below the root stands for a
    dataset with a non-empty identifier. *)
Theorem graph_sources_are_nonempty (history : list Call) (root : string) :
  ∃ g,
    (∀ frames,
       get_full_lineage_graph frames root (ledger history) =
         (if decide (height g < frames) then Ok g else Raise RecursionError,
          ledger history)) ∧
    ∀ n s, n ∈ preorder g → s ∈ sources n → dataset_id s ≠ EmptyString.
Proof.
  destruct (graph_with_reachable_set (ledger history) root (ledger_wf history))
    as (R & g & _ & Hwalk & Hrun).
  exists g. split; [done|]. intros n s Hn Hs.
  apply walk_shape in Hwalk. rewrite Forall_forall in Hwalk.
  destruct (Hwalk _ Hn) as [[_ Hnone]|[_ Hsources]].
  { rewrite Hnone in Hs. by apply elem_of_nil in Hs. }
  assert (dataset_id s ∈ dataset_id <$> sources n) as Hin
    by by apply list_elem_of_fmap_2.
  rewrite Hsources in Hin.
  apply list_elem_of_omap in Hin as (r & _ & Hfollowed).
  unfold followed_source in Hfollowed.
  destruct (rec_source_dataset_id r) as [src|]; [|done].
  destruct (truthy_str src) eqn:Htruthy; [|done].
  injection Hfollowed as <-. by apply truthy_str_true.
Qed.
End Kept.

(** ** The example client against the service *)

Section EtlRun.
Context `{!JsonCodec, !SqlEngine}.
Variable str : exn → string.

Lemma post_state record clock db :
  (Main.record_transformation str record clock db).2
  = (append (call_of_request record clock) db).2.
Proof.
  unfold Main.record_transformation.
  change (record_transformation _ _ _ _ clock db)
    with (append (call_of_request record clock) db).
  by destruct (append _ _) as [[rowid|e] db'].
Qed.

Lemma post_all_ledger requests history :
  post_all str requests (ledger history) =
    ledger (history ++
            ((λ request, call_of_request request.1 request.2) <$> requests)).
Proof.
  revert history. induction requests as [|[record clock] requests IH];
    intros history; simpl.
  - by rewrite app_nil_r.
  - rewrite post_state, <-ledger_snoc, IH, <-app_assoc. done.
Qed.

(** X17.  After the service has answered the five requests of
    [run_etl_pipeline] on a fresh database, whatever the lengths of the
    data frames and the clock readings, the graph endpoint answers for
    [final_dataset_001] a path of five nodes, from the final dataset down
    to the raw one, each with the one operation that produced it. *)
Theorem etl_pipeline_lineage
    (raw_data clean_data filtered_data aggregated_data final_data : Z)
    (t1 t2 t3 t4 t5 : Clock) (k : nat) :
  let requests :=
    zip (Etl.run_etl_pipeline raw_data clean_data filtered_data
           aggregated_data final_data) [t1; t2; t3; t4; t5] in
  let db := post_all str requests init_db in
  ∃ g,
    Main.get_lineage_graph str (5 + k) "final_dataset_001" db =
      (Main.Respond {| Main.graph_dataset_id := "final_dataset_001";
                       Main.graph_of := g |}, db) ∧
    path_graph ((λ request, call_of_request request.1 request.2) <$> requests)
      = [g] ∧
    dataset_id <$> preorder g =
      [ "final_dataset_001"; "aggregated_dataset_001"; "filtered_dataset_001";
        "clean_dataset_001"; "raw_dataset_001" ] ∧
    (operation <$> (preorder g ≫= operations)) =
      [ "enrich_with_calculations"; "aggregate_by_region"; "filter_by_age";
        "clean_data"; "load_from_source" ].
Proof.
  intros requests db.
  set (calls := (λ request, call_of_request request.1 request.2) <$> requests).
  assert (db = ledger calls) as Hdb.
  { unfold db. change init_db with (ledger []). by rewrite post_all_ledger. }
  assert (pipeline_shaped calls) as Hshaped.
  { split; [by repeat split|]. split.
    - by apply (bool_decide_unpack _); vm_compute.
    - by repeat constructor. }
  assert (Z.of_nat (length calls) ≤ max_rowid)%Z as Hfits
    by (vm_compute; discriminate).
  set (c := call_of_request
              (Etl.payload "final_dataset_001" "enrich_with_calculations"
                 (Some "aggregated_dataset_001")
                 (Some [ ("new_columns", JList [JStr "purchase_per_customer"]);
                         ("calculations",
                          JList [JStr "total_purchase / customer_count"]);
                         ("input_records", JInt aggregated_data);
                         ("output_records", JInt final_data) ])) t5).
  destruct (records_of_pipeline calls Hshaped Hfits c) as [rowid Hrecords].
  { do 4 right. left. }
  destruct (build_graph_pipeline calls Hshaped Hfits (take 4 calls) c [] ∅ k)
    as (g & Hpath & Hrun); [done|by intros x _ ?%elem_of_empty|].
  exists g. rewrite Hdb. split; [|split; [done|]].
  - unfold Main.get_lineage_graph.
    rewrite get_lineage_ok by apply ledger_wf.
    change "final_dataset_001" with (call_dataset_id c). rewrite Hrecords.
    unfold get_full_lineage_graph, mbind, M_bind.
    change (5 + k) with (S (length (take 4 calls)) + k). by rewrite Hrun.
  - injection Hpath as <-. by split.
Qed.
End EtlRun.

(** * The further statements at work *)

Section FurtherWithScan.
#[local] Existing Instance Instances.json.
#[local] Existing Instance Instances.scan.
Import Examples.

(** A second append to [clean] leaves the lookup of [raw] as it was. *)
Lemma append_keeps_other_lookups_witness :
  call_dataset_id (call "3" "clean" "normalise" (Some "raw") JNull) ≠ "raw" ∧
  (get_lineage "raw"
     (append (call "3" "clean" "normalise" (Some "raw") JNull)
        (ledger pipeline)).2).1
  = (get_lineage "raw" (ledger pipeline)).1.
Proof.
  split; [vm_compute; discriminate|].
  apply (append_keeps_other_lookups
           (call "3" "clean" "normalise" (Some "raw") JNull)
           (ledger pipeline) "raw").
  vm_compute; discriminate.
Defined.

(** ... and adds one record to the lookup of [clean]. *)
Lemma append_extends_own_lookup_witness :
  (sqlite_sequence (ledger pipeline) < max_rowid)%Z ∧
  ∃ rowid before after,
    get_lineage "clean" (ledger pipeline) = (Ok before, ledger pipeline) ∧
    append (call "3" "clean" "normalise" (Some "raw") JNull) (ledger pipeline)
    = (Ok rowid,
       ledger (pipeline ++ [call "3" "clean" "normalise" (Some "raw") JNull])) ∧
    get_lineage "clean"
      (ledger (pipeline ++ [call "3" "clean" "normalise" (Some "raw") JNull]))
    = (Ok after,
       ledger (pipeline ++ [call "3" "clean" "normalise" (Some "raw") JNull])) ∧
    after ≡ₚ
      before ++
      [record_of
         (row_of_call rowid (call "3" "clean" "normalise" (Some "raw") JNull))].
Proof.
  split; [vm_compute; reflexivity|].
  apply (append_extends_own_lookup pipeline
           (call "3" "clean" "normalise" (Some "raw") JNull)).
  vm_compute; reflexivity.
Defined.

(** The two records of [R] in the diamond were written a second apart. *)
Lemma lookup_in_insertion_order_witness :
  StronglySorted (λ a b, strict String.le (r_timestamp a) (r_timestamp b))
    (rows_of (ledger diamond) "R") ∧
  get_lineage "R" (ledger diamond) =
    (Ok (record_of <$> rows_of (ledger diamond) "R"), ledger diamond) ∧
  StronglySorted Z.lt (rec_id <$> (record_of <$> rows_of (ledger diamond) "R")).
Proof.
  assert (StronglySorted
            (λ a b, strict String.le (r_timestamp a) (r_timestamp b))
            (rows_of (ledger diamond) "R")) as Hsorted.
  { vm_compute. repeat constructor. intros []. }
  split; [exact Hsorted|].
  apply (lookup_in_insertion_order diamond "R"). exact Hsorted.
Defined.

(** A request after the two of [pipeline]. *)
Lemma post_then_get_witness :
  (sqlite_sequence (ledger pipeline) < max_rowid)%Z ∧
  ∃ rowid db' records r,
    Main.record_transformation (λ _, "error")
      (Etl.payload "clean" "normalise" (Some "raw") (Some []))
      (clock "3") (ledger pipeline) =
      (Main.Respond
         {| Main.recorded_status := "success";
            Main.recorded_record_id := rowid;
            Main.recorded_dataset_id := "clean";
            Main.recorded_message := "Transformation recorded successfully" |},
       db') ∧
    Main.get_lineage (λ _, "error") "clean" db' =
      (Main.Respond
         {| Main.lineage_dataset_id := "clean";
            Main.lineage_records_of := records |},
       db') ∧
    r ∈ records ∧ rec_id r = rowid ∧
    rec_operation r = "normalise" ∧
    rec_source_dataset_id r = Some "raw" ∧
    rec_metadata r = JNull.
Proof.
  split; [vm_compute; reflexivity|].
  apply (post_then_get (λ _, "error") pipeline
           (Etl.payload "clean" "normalise" (Some "raw") (Some []))
           (clock "3")).
  vm_compute; reflexivity.
Defined.

(** Four steps; the graph of the third. *)
Lemma pipeline_reconstructs_to_path_witness :
  pipeline_shaped
    ([ call "1" "raw" "load" None JNull;
       call "2" "clean" "dedupe" (Some "raw") JNull ] ++
     call "3" "filtered" "filter" (Some "clean") JNull ::
     [ call "4" "final" "enrich" (Some "filtered") JNull ]) ∧
  (Z.of_nat
     (length
        ([ call "1" "raw" "load" None JNull;
           call "2" "clean" "dedupe" (Some "raw") JNull ] ++
         call "3" "filtered" "filter" (Some "clean") JNull ::
         [ call "4" "final" "enrich" (Some "filtered") JNull ]))
   ≤ max_rowid)%Z ∧
  ∃ g,
    path_graph
      ([ call "1" "raw" "load" None JNull;
         call "2" "clean" "dedupe" (Some "raw") JNull ] ++
       [ call "3" "filtered" "filter" (Some "clean") JNull ]) = [g] ∧
    get_full_lineage_graph 3 "filtered"
      (ledger
         ([ call "1" "raw" "load" None JNull;
            call "2" "clean" "dedupe" (Some "raw") JNull ] ++
          call "3" "filtered" "filter" (Some "clean") JNull ::
          [ call "4" "final" "enrich" (Some "filtered") JNull ])) =
      (Ok g,
       ledger
         ([ call "1" "raw" "load" None JNull;
            call "2" "clean" "dedupe" (Some "raw") JNull ] ++
          call "3" "filtered" "filter" (Some "clean") JNull ::
          [ call "4" "final" "enrich" (Some "filtered") JNull ])).
Proof.
  assert (pipeline_shaped
            ([ call "1" "raw" "load" None JNull;
               call "2" "clean" "dedupe" (Some "raw") JNull ] ++
             call "3" "filtered" "filter" (Some "clean") JNull ::
             [ call "4" "final" "enrich" (Some "filtered") JNull ]))
    as Hshaped.
  { split; [by repeat split|]. split.
    - by apply (bool_decide_unpack _); vm_compute.
    - by repeat constructor. }
  split; [exact Hshaped|]. split; [vm_compute; discriminate|].
  apply (pipeline_reconstructs_to_path
           [ call "1" "raw" "load" None JNull;
             call "2" "clean" "dedupe" (Some "raw") JNull ]
           [ call "4" "final" "enrich" (Some "filtered") JNull ]
           (call "3" "filtered" "filter" (Some "clean") JNull) 0).
  - exact Hshaped.
  - vm_compute; discriminate.
Defined.

(** The run of the example client on its own data: 100 rows loaded, none
    dropped by the cleaning, 80 left by the filter, 4 regions. *)
Example graph_of_etl_run :
  Main.get_lineage_graph (λ _, "error") 5 "aggregated_dataset_001"
    (post_all (λ _, "error")
       (zip (Etl.run_etl_pipeline 100 100 80 4 4)
          [clock "1"; clock "2"; clock "3"; clock "4"; clock "5"])
       init_db)
  = (Main.Respond
       {| Main.graph_dataset_id := "aggregated_dataset_001";
          Main.graph_of :=
            Node "aggregated_dataset_001"
              [ {| operation := "aggregate_by_region";
                   timestamp := utcnow_isoformat (clock "4");
                   metadata :=
                     JDict [ ("group_by", JStr "region");
                             ("aggregations",
                              JDict [ ("purchase_amount",
                                       JList [JStr "sum"; JStr "mean";
                                              JStr "count"]);
                                      ("age", JStr "mean") ]);
                             ("input_records", JInt 80);
                             ("output_records", JInt 4) ] |} ]
              [ Node "filtered_dataset_001"
                  [ {| operation := "filter_by_age";
                       timestamp := utcnow_isoformat (clock "3");
                       metadata :=
                         JDict [ ("filter_condition", JStr "age >= 30");
                                 ("input_records", JInt 100);
                                 ("output_records", JInt 80);
                                 ("records_filtered", JInt 20) ] |} ]
                  [ Node "clean_dataset_001"
                      [ {| operation := "clean_data";
                           timestamp := utcnow_isoformat (clock "2");
                           metadata :=
                             JDict [ ("operations",
                                      JList [JStr "remove_duplicates";
                                             JStr "fill_missing_values"]);
                                     ("input_records", JInt 100);
                                     ("output_records", JInt 100);
                                     ("records_removed", JInt 0) ] |} ]
                      [ Node "raw_dataset_001"
                          [ {| operation := "load_from_source";
                               timestamp := utcnow_isoformat (clock "1");
                               metadata :=
                                 JDict [ ("source", JStr "external_api");
                                         ("record_count", JInt 100);
                                         ("columns",
                                          JList [JStr "customer_id"; JStr "age";
                                                 JStr "purchase_amount";
                                                 JStr "region"]);
                                         ("description",
                                          JStr "Initial data load from external source") ] |} ]
                          [] ] ] ] |},
     post_all (λ _, "error")
       (zip (Etl.run_etl_pipeline 100 100 80 4 4)
          [clock "1"; clock "2"; clock "3"; clock "4"; clock "5"])
       init_db).
Proof. vm_compute. reflexivity. Qed.

End FurtherWithScan.
